(** * The CSS selector builder of [08-objects-tasks.js]

    A shallow embedding of [class Builder] and of the [cssSelectorBuilder]
    facade, followed by the properties of the builder: what a failed append
    leaves behind, which error is thrown when, what [stringify] renders, and
    how builders created by separate facade calls are kept apart.

    Layout:
    - [Array_sort]: the built-in [Array.prototype.sort] with a comparator;
    - [Module Builder]: the class, as a state-and-exception monad over the
      fields of [this];
    - [Module Heap] and [Module cssSelectorBuilder]: objects with identity,
      allocation by [new Builder()], method calls through a reference;
    - the lemmas, and last the theorems about the behaviour. *)

From stdpp Require Import gmap strings list sorting.
From Stdlib Require Import ZArith Sorting.Sorted.

(** ** [Array.prototype.sort(comparefn)]

    The language's built-in: a stable sort, [comparefn a b <= 0] keeping [a]
    before [b].  Written as an insertion sort from the right, so that an
    element is never moved past one that compares equal to it. *)

Section ArraySort.
Context {A : Type} (comparefn : A → A → Z).

Fixpoint sort_insert (x : A) (l : list A) : list A :=
  match l with
  | [] => [x]
  | y :: l' =>
      if (comparefn x y <=? 0)%Z then x :: y :: l' else y :: sort_insert x l'
  end.

Definition Array_sort (l : list A) : list A := foldr sort_insert [] l.
End ArraySort.

(** ** Error objects

    [new Error(msg)] allocates an object; nothing in the program mutates it
    afterwards, so an error is its address together with its message.  Two
    errors are the same object exactly when their addresses agree. *)

Record Error := mkError { err_addr : nat; message : string }.

Global Instance Error_eq_dec : EqDecision Error.
Proof. solve_decision. Defined.

(** The one-character string holding a double quote. *)
Definition dquote : string := String (Ascii.ascii_of_nat 34) EmptyString.

Definition duplication_message : string :=
  "Element, id and pseudo-element should not occur more then one time inside the selector"
  +:+ dquote
  +:+ " if element, id or pseudo-element occurs twice or more times".

Definition order_message : string :=
  "Selector parts should be arranged in the following order: element, id, class, attribute, pseudo-class, pseudo-element".

(** The spec's names for the two kinds of failure; the code tells them apart
    only by the message of the thrown [Error]. *)
Definition DuplicateSelectorPartError (e : Error) : Prop :=
  message e = duplication_message.
Definition SelectorOrderError (e : Error) : Prop :=
  message e = order_message.

(** ** Completions: a method call returns or throws *)

Inductive completion (A : Type) : Type :=
| Normal (a : A)
| Throw (e : Error).
Arguments Normal {A} a.
Arguments Throw {A} e.

Definition is_throw {A} (c : completion A) : bool :=
  match c with Throw _ => true | Normal _ => false end.

(** ** [class Builder] *)

Module Builder.

Record t := mk {
  idUsed : bool;
  elementUsed : bool;
  pseudoElementUsed : bool;
  order : list Z;
  result : string;
  duplicationError : Error;
  orderError : Error
}.

(** Method bodies run on the fields of [this]: they read and assign them,
    and either complete normally or throw.  Assignments made before a
    [throw] stay made. *)
Definition M (A : Type) : Type := t → t * completion A.

Definition ret {A} (a : A) : M A := λ this, (this, Normal a).
Definition bind {A B} (m : M A) (k : A → M B) : M B :=
  λ this,
    match m this with
    | (this', Normal a) => k a this'
    | (this', Throw e) => (this', Throw e)
    end.
Definition throw {A} (e : Error) : M A := λ this, (this, Throw e).
Definition get : M t := λ this, (this, Normal this).
Definition modify (f : t → t) : M unit := λ this, (f this, Normal tt).

Declare Scope builder_scope.
Delimit Scope builder_scope with builder.
Notation "x <- m ;; k" := (bind m (λ x, k))
  (at level 100, m at next level, right associativity) : builder_scope.
Notation "m ;; k" := (bind m (λ _, k))
  (at level 100, right associativity) : builder_scope.
Local Open Scope builder_scope.

(** Field assignments. *)
Definition set_idUsed (v : bool) (b : t) : t :=
  mk v (elementUsed b) (pseudoElementUsed b) (order b) (result b)
     (duplicationError b) (orderError b).
Definition set_elementUsed (v : bool) (b : t) : t :=
  mk (idUsed b) v (pseudoElementUsed b) (order b) (result b)
     (duplicationError b) (orderError b).
Definition set_pseudoElementUsed (v : bool) (b : t) : t :=
  mk (idUsed b) (elementUsed b) v (order b) (result b)
     (duplicationError b) (orderError b).
(** [this.order.push(r)] *)
Definition order_push (r : Z) (b : t) : t :=
  mk (idUsed b) (elementUsed b) (pseudoElementUsed b) (order b ++ [r])
     (result b) (duplicationError b) (orderError b).
(** [this.result += s] *)
Definition result_append (s : string) (b : t) : t :=
  mk (idUsed b) (elementUsed b) (pseudoElementUsed b) (order b)
     (result b +:+ s) (duplicationError b) (orderError b).

(** [for (let i = 0; i < n; i++) body(i)] *)
Definition for_upto (n : nat) (body : nat → M unit) : M unit :=
  foldr (λ i rest, body i ;; rest) (ret tt) (seq 0 n).

Definition validateOrder : M unit :=
  this <- get ;;
  let sortedOrder := Array_sort (λ a b, (a - b)%Z) (order this) in
  for_upto (length (order this)) (λ i,
    if bool_decide (order this !! i ≠ sortedOrder !! i)
    then throw (orderError this)
    else ret tt).

Definition element (value : string) : M unit :=
  this <- get ;;
  if elementUsed this then throw (duplicationError this) else
  modify (set_elementUsed true) ;;
  modify (order_push 0) ;;
  validateOrder ;;
  modify (result_append value).

Definition id (value : string) : M unit :=
  this <- get ;;
  if idUsed this then throw (duplicationError this) else
  modify (set_idUsed true) ;;
  modify (order_push 1) ;;
  validateOrder ;;
  modify (result_append ("#" +:+ value)).

Definition class (value : string) : M unit :=
  modify (order_push 2) ;;
  validateOrder ;;
  modify (result_append ("." +:+ value)).

Definition attr (value : string) : M unit :=
  modify (order_push 3) ;;
  validateOrder ;;
  modify (result_append ("[" +:+ value +:+ "]")).

Definition pseudoClass (value : string) : M unit :=
  modify (order_push 4) ;;
  validateOrder ;;
  modify (result_append (":" +:+ value)).

Definition pseudoElement (value : string) : M unit :=
  this <- get ;;
  if pseudoElementUsed this then throw (duplicationError this) else
  modify (set_pseudoElementUsed true) ;;
  modify (order_push 5) ;;
  validateOrder ;;
  modify (result_append ("::" +:+ value)).

Definition stringify : M string :=
  this <- get ;;
  ret (result this).

(** [selector1] and [selector2] are read, never assigned. *)
Definition combine (selector1 : t) (combinator : string) (selector2 : t)
  : M unit :=
  modify (result_append
            (result selector1 +:+ " " +:+ combinator +:+ " " +:+ result selector2)).

(** The fields as the constructor leaves them; the two error objects are
    allocated by the caller's heap (see [Heap.new_Builder]). *)
Definition constructor (dupErr ordErr : Error) : t :=
  mk false false false [] "" dupErr ordErr.

End Builder.

(** ** The six part-append methods, by category *)

Inductive category : Type :=
| Element | Id | Class | Attribute | PseudoClass | PseudoElement.

Global Instance category_eq_dec : EqDecision category.
Proof. solve_decision. Defined.

(** The number each method pushes on [order]. *)
Definition rank (c : category) : Z :=
  match c with
  | Element => 0 | Id => 1 | Class => 2
  | Attribute => 3 | PseudoClass => 4 | PseudoElement => 5
  end.

(** The text each method appends to [result]. *)
Definition fragment (c : category) (value : string) : string :=
  match c with
  | Element => value
  | Id => "#" +:+ value
  | Class => "." +:+ value
  | Attribute => "[" +:+ value +:+ "]"
  | PseudoClass => ":" +:+ value
  | PseudoElement => "::" +:+ value
  end.

(** The flag a method tests and sets; [class], [attr] and [pseudoClass] have
    none. *)
Definition seen (c : category) (b : Builder.t) : bool :=
  match c with
  | Element => Builder.elementUsed b
  | Id => Builder.idUsed b
  | PseudoElement => Builder.pseudoElementUsed b
  | Class | Attribute | PseudoClass => false
  end.

Definition mark (c : category) (b : Builder.t) : Builder.t :=
  match c with
  | Element => Builder.set_elementUsed true b
  | Id => Builder.set_idUsed true b
  | PseudoElement => Builder.set_pseudoElementUsed true b
  | Class | Attribute | PseudoClass => b
  end.

Definition part (c : category) (value : string) : Builder.M unit :=
  match c with
  | Element => Builder.element value
  | Id => Builder.id value
  | Class => Builder.class value
  | Attribute => Builder.attr value
  | PseudoClass => Builder.pseudoClass value
  | PseudoElement => Builder.pseudoElement value
  end.

(** A caller holding one builder makes the calls [ps] on it in turn, catching
    whatever is thrown and going on: the builder afterwards, and how each call
    completed. *)
Fixpoint calls (ps : list (category * string)) (b : Builder.t)
  : Builder.t * list (completion unit) :=
  match ps with
  | [] => (b, [])
  | (c, v) :: ps' =>
      let '(b1, r) := part c v b in
      let '(b2, rs) := calls ps' b1 in
      (b2, r :: rs)
  end.

(** What a caller can see of a builder: the three flags, the rank sequence and
    the rendered text. *)
Definition observable (b : Builder.t) : bool * bool * bool * list Z * string :=
  (Builder.elementUsed b, Builder.idUsed b, Builder.pseudoElementUsed b,
   Builder.order b, Builder.result b).

(** The builder's errors are the ones its constructor made. *)
Definition errors_ok (b : Builder.t) : Prop :=
  DuplicateSelectorPartError (Builder.duplicationError b) ∧
  SelectorOrderError (Builder.orderError b).

(** ** Objects with identity

    Builders live in a heap and are reached through references; a method call
    through a reference updates the object in place.  [new Builder()] takes
    three fresh addresses: the builder's own and those of the two [Error]
    objects its constructor creates. *)

Module Heap.

Record t := mk { objects : gmap nat Builder.t; next : nat }.

Definition empty : t := mk ∅ 0.

Definition new_Error (msg : string) (h : t) : Error * t :=
  (mkError (next h) msg, mk (objects h) (S (next h))).

Definition new_Builder (h : t) : nat * t :=
  let this := next h in
  let h0 := mk (objects h) (S (next h)) in
  let '(dupErr, h1) := new_Error duplication_message h0 in
  let '(ordErr, h2) := new_Error order_message h1 in
  (this, mk (<[this := Builder.constructor dupErr ordErr]> (objects h2)) (next h2)).

(** [ref.m(...)]: run the method on the object at [ref] and store the
    fields back.  [None] only for a reference that points at nothing, which
    no reference handed out by [new_Builder] does. *)
Definition call {A} (m : Builder.M A) (ref : nat) (h : t)
  : option (t * completion A) :=
  match objects h !! ref with
  | Some this =>
      let '(this', c) := m this in
      Some (mk (<[ref := this']> (objects h)) (next h), c)
  | None => None
  end.

(** A method ending in [return this] hands the reference back. *)
Definition call_this (m : Builder.M unit) (ref : nat) (h : t)
  : option (t * completion nat) :=
  match call m ref h with
  | Some (h', Normal _) => Some (h', Normal ref)
  | Some (h', Throw e) => Some (h', Throw e)
  | None => None
  end.

Definition call_combine (ref selector1 : nat) (combinator : string)
    (selector2 : nat) (h : t) : option (t * completion nat) :=
  match objects h !! selector1, objects h !! selector2 with
  | Some s1, Some s2 => call_this (Builder.combine s1 combinator s2) ref h
  | _, _ => None
  end.

(** Every address in use lies below [next]. *)
Definition wf (h : t) : Prop :=
  ∀ r b, objects h !! r = Some b →
    r < next h ∧
    err_addr (Builder.duplicationError b) < next h ∧
    err_addr (Builder.orderError b) < next h.

End Heap.

(** ** The facade *)

Module cssSelectorBuilder.

Definition element (value : string) (h : Heap.t) :=
  let '(b, h') := Heap.new_Builder h in Heap.call_this (Builder.element value) b h'.

Definition id (value : string) (h : Heap.t) :=
  let '(b, h') := Heap.new_Builder h in Heap.call_this (Builder.id value) b h'.

Definition class (value : string) (h : Heap.t) :=
  let '(b, h') := Heap.new_Builder h in Heap.call_this (Builder.class value) b h'.

Definition attr (value : string) (h : Heap.t) :=
  let '(b, h') := Heap.new_Builder h in Heap.call_this (Builder.attr value) b h'.

Definition pseudoClass (value : string) (h : Heap.t) :=
  let '(b, h') := Heap.new_Builder h in Heap.call_this (Builder.pseudoClass value) b h'.

Definition pseudoElement (value : string) (h : Heap.t) :=
  let '(b, h') := Heap.new_Builder h in Heap.call_this (Builder.pseudoElement value) b h'.

Definition combine (selector1 : nat) (combinator : string) (selector2 : nat)
    (h : Heap.t) :=
  let '(b, h') := Heap.new_Builder h in
  Heap.call_combine b selector1 combinator selector2 h'.

End cssSelectorBuilder.

(** ** Ranks in order

    The comparator handed to [sort] in [validateOrder], and what it sorts
    towards. *)

Definition compareRanks (a b : Z) : Z := (a - b)%Z.

Abbreviation nondecreasing := (StronglySorted Z.le).

(** The categories whose method tests a flag. *)
Definition singleton_category (c : category) : bool :=
  match c with
  | Element | Id | PseudoElement => true
  | Class | Attribute | PseudoClass => false
  end.


(** ** Chains of calls through the facade

    [cssSelectorBuilder.id('main').class('container')...]: an entry point of
    the facade, then methods called on the reference each call returns.  A
    throw ends the chain. *)

Definition facade_part (c : category) (value : string) (h : Heap.t)
  : option (Heap.t * completion nat) :=
  match c with
  | Element => cssSelectorBuilder.element value h
  | Id => cssSelectorBuilder.id value h
  | Class => cssSelectorBuilder.class value h
  | Attribute => cssSelectorBuilder.attr value h
  | PseudoClass => cssSelectorBuilder.pseudoClass value h
  | PseudoElement => cssSelectorBuilder.pseudoElement value h
  end.

Definition and_then (r : option (Heap.t * completion nat))
    (c : category) (value : string) : option (Heap.t * completion nat) :=
  match r with
  | Some (h, Normal ref) => Heap.call_this (part c value) ref h
  | _ => r
  end.

(** [....stringify()] at the end of a chain. *)
Definition and_stringify (r : option (Heap.t * completion nat))
  : option (Heap.t * completion string) :=
  match r with
  | Some (h, Normal ref) => Heap.call Builder.stringify ref h
  | Some (h, Throw e) => Some (h, Throw e)
  | None => None
  end.

(** [n] calls of [ref.stringify()] in a row. *)
Fixpoint stringify_times (n : nat) (ref : nat) (h : Heap.t)
  : option (Heap.t * list (completion string)) :=
  match n with
  | 0 => Some (h, [])
  | S n' =>
      match Heap.call Builder.stringify ref h with
      | Some (h1, r) =>
          match stringify_times n' ref h1 with
          | Some (h2, rs) => Some (h2, r :: rs)
          | None => None
          end
      | None => None
      end
  end.

Inductive entry : Type :=
| ViaPart (c : category) (value : string)
| ViaCombine (selector1 : nat) (combinator : string) (selector2 : nat).

Definition enter (e : entry) (h : Heap.t) : option (Heap.t * completion nat) :=
  match e with
  | ViaPart c value => facade_part c value h
  | ViaCombine s1 k s2 => cssSelectorBuilder.combine s1 k s2 h
  end.

Record chain := mkChain { chain_entry : entry; chain_rest : list (category * string) }.

Definition run_chain (ch : chain) (h : Heap.t) : option (Heap.t * completion nat) :=
  foldl (λ r p, and_then r p.1 p.2) (enter (chain_entry ch) h) (chain_rest ch).

(** A program evaluating one chain after another, catching what they throw. *)
Fixpoint run_all (chs : list chain) (h : Heap.t) : option Heap.t :=
  match chs with
  | [] => Some h
  | ch :: chs' =>
      match run_chain ch h with
      | Some (h', _) => run_all chs' h'
      | None => None
      end
  end.

(** ** Programs: calls on several builders, in any order

    What a caller does besides the chain under study: it enters the facade
    again, and it calls methods on the builders it already holds, the calls
    of different chains interleaved as it likes.  What a call throws is
    caught, what it returns is dropped. *)











(** The selectors a chain combines exist. *)
Definition operands_in (h : Heap.t) (e : entry) : Prop :=
  match e with
  | ViaPart _ _ => True
  | ViaCombine s1 _ s2 =>
      is_Some (Heap.objects h !! s1) ∧ is_Some (Heap.objects h !! s2)
  end.



(** The concatenation of the fragments of [ps], first to last. *)
Definition fragments (ps : list (category * string)) : string :=
  foldr (λ p acc, fragment p.1 p.2 +:+ acc) "" ps.

(** A builder as [new Builder()] makes it on the empty heap. *)
Definition fresh : Builder.t :=
  Builder.constructor (mkError 1 duplication_message) (mkError 2 order_message).

(** The ranks a run of calls tries to push, in order. *)
Definition ranks (ps : list (category * string)) : list Z :=
  (λ p, rank p.1) <$> ps.

(** The calls after the entry point of a chain, on the builder itself: the
    first throw ends the chain. *)
Fixpoint chained (ps : list (category * string)) (b : Builder.t)
  : Builder.t * completion unit :=
  match ps with
  | [] => (b, Normal tt)
  | (c, v) :: ps' =>
      match part c v b with
      | (b1, Normal _) => chained ps' b1
      | (b1, Throw e) => (b1, Throw e)
      end
  end.

(** Two builders alike in everything but the addresses of their errors. *)
Definition similar (b1 b2 : Builder.t) : Prop :=
  observable b1 = observable b2 ∧
  message (Builder.duplicationError b1) = message (Builder.duplicationError b2) ∧
  message (Builder.orderError b1) = message (Builder.orderError b2).

Definition thrown {A} (r : completion A) : option string :=
  match r with Normal _ => None | Throw e => Some (message e) end.


(** The reference a chain hands on. *)
Definition handed (ref : nat) (r : completion unit) : completion nat :=
  match r with Normal _ => Normal ref | Throw e => Throw e end.

(** The builder [new Builder()] puts on heap [h], and what a whole chain
    makes of it: [run_chain] computes exactly this and stores it at the new
    address (lemma [run_chain_spec]). *)
Definition made (h : Heap.t) : Builder.t :=
  Builder.constructor (mkError (S (Heap.next h)) duplication_message)
                      (mkError (S (S (Heap.next h))) order_message).

Definition entry_builder (e : entry) (h : Heap.t)
  : option (Builder.t * completion unit) :=
  match e with
  | ViaPart c value => Some (part c value (made h))
  | ViaCombine s1 k s2 =>
      let objs := <[Heap.next h := made h]> (Heap.objects h) in
      match objs !! s1, objs !! s2 with
      | Some b1, Some b2 => Some (Builder.combine b1 k b2 (made h))
      | _, _ => None
      end
  end.

Definition chain_builder (ch : chain) (h : Heap.t)
  : option (Builder.t * completion unit) :=
  match entry_builder (chain_entry ch) h with
  | Some (b, Normal _) => Some (chained (chain_rest ch) b)
  | other => other
  end.

(** The heap after [element('div').id('main')] and
    [element('table').id('data')]: two builders, at addresses 0 and 3. *)
Definition two_selector_chains : list chain :=
  [mkChain (ViaPart Element "div") [(Id, "main")];
   mkChain (ViaPart Element "table") [(Id, "data")]].

Definition two_selectors : Heap.t :=
  from_option id Heap.empty (run_all two_selector_chains Heap.empty).

(** The two builders on that heap. *)
Definition div_main : Builder.t :=
  Builder.mk true true false [0%Z; 1%Z] "div#main"
    (mkError 1 duplication_message) (mkError 2 order_message).

Definition table_data : Builder.t :=
  Builder.mk true true false [0%Z; 1%Z] "table#data"
    (mkError 4 duplication_message) (mkError 5 order_message).

(** ** Runs of calls, looked at afterwards *)

(** The calls of [ps] that returned, given how each call completed. *)
Fixpoint returned (ps : list (category * string)) (rs : list (completion unit))
  : list (category * string) :=
  match ps, rs with
  | p :: ps', Normal _ :: rs' => p :: returned ps' rs'
  | _ :: ps', Throw _ :: rs' => returned ps' rs'
  | _, _ => []
  end.

(** How many calls of [ps] are of category [c]. *)
Definition times (c : category) (ps : list (category * string)) : nat :=
  length (filter (λ p, p.1 = c) ps).

(** How many entries of an [order] are the rank [r]. *)
Definition occurrences (r : Z) (l : list Z) : nat :=
  length (filter (λ x, x = r) l).

(** The builders a program can hold: made by the constructor, then changed
    by any of the six append methods or by [combine], in any number and
    order, whether the calls return or throw. *)
Inductive reachable : Builder.t → Prop :=
| reach_new (d o : Error) : reachable (Builder.constructor d o)
| reach_part (c : category) (v : string) (b : Builder.t) :
    reachable b → reachable (part c v b).1
| reach_combine (s1 : Builder.t) (k : string) (s2 : Builder.t) (b : Builder.t) :
    reachable b → reachable (Builder.combine s1 k s2 b).1.

(** The text [combine] appends. *)
Definition combined_text (t1 k t2 : string) : string :=
  t1 +:+ " " +:+ k +:+ " " +:+ t2.

(** [const s = <chain>; <what comes next, using s>]. *)
Definition with_selector {A} (r : option (Heap.t * completion nat))
    (next : nat → Heap.t → option (Heap.t * completion A))
  : option (Heap.t * completion A) :=
  match r with
  | Some (h, Normal ref) => next ref h
  | Some (h, Throw e) => Some (h, Throw e)
  | None => None
  end.

(** Flags and [order] agree: every entry of [order] is a rank, and the rank
    of [element], of [id], of [pseudoElement] is there once if its flag is
    set and not at all if it is not. *)
Definition consistent_with (l : list Z) (flag : category → bool) : Prop :=
  Forall (λ r, (0 <= r <= 5)%Z) l ∧
  ∀ c, singleton_category c = true →
       occurrences (rank c) l = if flag c then 1 else 0.

Definition consistent (b : Builder.t) : Prop :=
  consistent_with (Builder.order b) (λ c, seen c b).

(** The heap of the example in the source's comment on the builder: the four
    compound selectors at addresses 0, 3, 6, 9, and at 12 the innermost
    [combine] of the last two with the combinator [' ']. *)
Definition documented_chains : list chain :=
  [mkChain (ViaPart Element "div")
     [(Id, "main"); (Class, "container"); (Class, "draggable")];
   mkChain (ViaPart Element "table") [(Id, "data")];
   mkChain (ViaPart Element "tr") [(PseudoClass, "nth-of-type(even)")];
   mkChain (ViaPart Element "td") [(PseudoClass, "nth-of-type(even)")];
   mkChain (ViaCombine 6 " " 9) []].

Definition documented : Heap.t :=
  from_option id Heap.empty (run_all documented_chains Heap.empty).

(** * Lemmas *)

(** ** Sorting ranks *)

Section SortFacts.
Implicit Types (l : list Z) (x : Z).

Lemma sort_insert_perm x l : sort_insert compareRanks x l ≡ₚ x :: l.
Proof.
  induction l as [|y l IH]; simpl; [done|].
  destruct (Z.leb_spec (compareRanks x y) 0); [done|].
  rewrite IH. apply Permutation_swap.
Qed.

Lemma Array_sort_perm l : Array_sort compareRanks l ≡ₚ l.
Proof.
  induction l as [|x l IH]; simpl; [done|].
  fold (Array_sort compareRanks l). by rewrite sort_insert_perm, IH.
Qed.

Lemma Array_sort_length l : length (Array_sort compareRanks l) = length l.
Proof. by rewrite Array_sort_perm. Qed.

Lemma sort_insert_sorted x l :
  nondecreasing l → nondecreasing (sort_insert compareRanks x l).
Proof.
  unfold compareRanks.
  induction 1 as [|y l Hl IH Hy]; simpl.
  - repeat constructor.
  - destruct (Z.leb_spec (x - y) 0).
    + constructor; [by constructor|].
      constructor; [lia|].
      eapply Forall_impl; [exact Hy|]. intros z ?; simpl in *. lia.
    + constructor; [done|].
      rewrite sort_insert_perm. constructor; [lia|done].
Qed.

Lemma Array_sort_sorted l : nondecreasing (Array_sort compareRanks l).
Proof.
  induction l as [|x l IH]; simpl; [constructor|].
  by apply sort_insert_sorted.
Qed.

(** Whatever sorting algorithm the engine uses, on integers the outcome is
    this one: a sorted rearrangement is unique. *)
Lemma Array_sort_unique l s :
  nondecreasing s → s ≡ₚ l → s = Array_sort compareRanks l.
Proof.
  intros Hs Hp. apply (StronglySorted_unique Z.le); [done| |].
  - apply Array_sort_sorted.
  - by rewrite Array_sort_perm.
Qed.

Lemma Array_sort_fixed l :
  Array_sort compareRanks l = l ↔ nondecreasing l.
Proof.
  split.
  - intros <-. apply Array_sort_sorted.
  - intros Hl. symmetry. by apply Array_sort_unique.
Qed.

Lemma nondecreasing_snoc l x :
  nondecreasing (l ++ [x]) ↔ nondecreasing l ∧ Forall (λ y, (y <= x)%Z) l.
Proof.
  rewrite StronglySorted_app, Forall_forall. split.
  - intros (H & Hl & _). split; [done|].
    intros y Hy. apply (H y x Hy). by apply list_elem_of_singleton.
  - intros [Hl H]. split; [|split; [done|repeat constructor]].
    intros y z Hy Hz. apply list_elem_of_singleton in Hz as ->. by apply H.
Qed.

(** Once out of order, always out of order, whatever is pushed next. *)
Lemma unsorted_snoc l x : ¬ nondecreasing l → ¬ nondecreasing (l ++ [x]).
Proof. rewrite nondecreasing_snoc. tauto. Qed.
End SortFacts.

(** ** What [validateOrder] and the append methods compute *)

Section MethodFacts.
Import Builder.
Implicit Types (b : Builder.t) (c : category) (v : string).

(** A loop whose body only tests and throws: it throws [e] exactly when
    the test fires at some index, and assigns nothing. *)
Lemma for_check (P : nat → Prop) `{!∀ i, Decision (P i)} (e : Error) idxs b :
  foldr (λ i rest,
           bind (if bool_decide (P i) then throw e else ret tt) (λ _, rest))
        (ret tt) idxs b
  = (b, if decide (Exists P idxs) then Throw e else Normal tt).
Proof.
  induction idxs as [|i idxs IH].
  - cbn [foldr]. unfold ret.
    destruct (decide (Exists P [])) as [He|]; [|done]. by apply Exists_nil in He.
  - cbn [foldr]. unfold bind at 1. case_bool_decide as Hi.
    + unfold throw.
      destruct (decide (Exists P (i :: idxs))) as [|He]; [done|].
      destruct He. by left.
    + unfold ret at 1. rewrite IH.
      destruct (decide (Exists P idxs)) as [He|He],
               (decide (Exists P (i :: idxs))) as [He'|He']; try done.
      * destruct He'. by right.
      * by apply Exists_cons in He' as [?|?].
Qed.

Lemma mismatch_iff (l s : list Z) :
  length s = length l →
  Exists (λ i, l !! i ≠ s !! i) (seq 0 (length l)) ↔ l ≠ s.
Proof.
  intros Hlen. rewrite Exists_exists. split.
  - intros (i & _ & Hi) ->. done.
  - intros Hne. destruct (decide (Exists (λ i, l !! i ≠ s !! i) (seq 0 (length l))))
      as [He|He]; [by apply Exists_exists in He|].
    destruct Hne. apply (list_eq_same_length _ _ (length l)); [done..|].
    intros i x y Hi Hx Hy.
    destruct (decide (l !! i = s !! i)) as [Heq|Hneq]; [congruence|].
    destruct He. apply Exists_exists. exists i. split; [|done].
    apply elem_of_seq. lia.
Qed.

Lemma validateOrder_spec b :
  validateOrder b
  = (b, if decide (nondecreasing (order b)) then Normal tt
        else Throw (orderError b)).
Proof.
  unfold validateOrder, for_upto, bind at 1, get.
  rewrite (for_check (λ i, order b !! i ≠ _ !! i)). f_equal.
  change (λ a b0 : Z, (a - b0)%Z) with compareRanks.
  destruct (decide (nondecreasing (order b))) as [Hs|Hs].
  - rewrite decide_False; [done|].
    rewrite mismatch_iff by apply Array_sort_length.
    intros Hne. apply Hne. symmetry. by apply Array_sort_fixed.
  - rewrite decide_True; [done|].
    rewrite mismatch_iff by apply Array_sort_length.
    intros Heq. apply Hs. by apply Array_sort_fixed.
Qed.

(** Every append method, in one equation: test the flag, set it, push the
    rank, validate, and only then extend the text. *)
Lemma part_spec c v b :
  part c v b =
    if seen c b then (b, Throw (duplicationError b))
    else
      let b1 := order_push (rank c) (mark c b) in
      if decide (nondecreasing (order b ++ [rank c]))
      then (result_append (fragment c v) b1, Normal tt)
      else (b1, Throw (orderError b)).
Proof.
  destruct c; simpl;
    unfold element, id, class, attr, pseudoClass, pseudoElement;
    unfold bind at 1, get; simpl;
    try (match goal with |- context [if ?f b then _ else _] =>
           destruct (f b) eqn:Hf; [done|] end);
    unfold bind, modify; simpl; rewrite validateOrder_spec; simpl;
    by case_decide.
Qed.
End MethodFacts.

(** ** How one append, and a run of appends, moves the builder *)

Section AppendFacts.
Import Builder.
Implicit Types (b : Builder.t) (c : category) (v : string).

Lemma messages_differ : duplication_message ≠ order_message.
Proof. intros H. vm_compute in H. discriminate H. Qed.

Lemma duplicate_not_order e :
  DuplicateSelectorPartError e → ¬ SelectorOrderError e.
Proof.
  unfold DuplicateSelectorPartError, SelectorOrderError.
  intros -> H. exact (messages_differ H).
Qed.

(** The three ways an append can go. *)
Lemma part_cases c v b :
  (seen c b = true ∧ part c v b = (b, Throw (duplicationError b))) ∨
  (seen c b = false ∧ ¬ nondecreasing (order b ++ [rank c]) ∧
     part c v b = (order_push (rank c) (mark c b), Throw (orderError b))) ∨
  (seen c b = false ∧ nondecreasing (order b ++ [rank c]) ∧
     part c v b =
       (result_append (fragment c v) (order_push (rank c) (mark c b)),
        Normal tt)).
Proof.
  rewrite part_spec. destruct (seen c b); [by left|right].
  cbv zeta. case_decide; [right|left]; done.
Qed.

End AppendFacts.

Ltac part_inv c v b :=
  destruct (part_cases c v b)
    as [(? & ->) | [(? & ? & ->) | (? & ? & ->)]];
  destruct c; simpl in *; try done.

Section RunFacts.
Import Builder.
Implicit Types (b : Builder.t) (c : category) (v : string).

Lemma part_errors c v b :
  duplicationError (part c v b).1 = duplicationError b ∧
  orderError (part c v b).1 = orderError b.
Proof. part_inv c v b. Qed.

Lemma part_errors_ok c v b : errors_ok b → errors_ok (part c v b).1.
Proof.
  unfold errors_ok. by destruct (part_errors c v b) as [-> ->].
Qed.

(** No method clears a flag. *)
Lemma part_seen_mono c' c v b :
  seen c' b = true → seen c' (part c v b).1 = true.
Proof. intros Hs. part_inv c v b; by destruct c'. Qed.

(** [element], [id] and [pseudoElement] leave their flag set, whether they
    return or throw. *)
Lemma part_marks c v b :
  singleton_category c = true → seen c (part c v b).1 = true.
Proof. intros Hc. part_inv c v b. Qed.

Lemma repeatable_never_seen c b : singleton_category c = false → seen c b = false.
Proof. by destruct c. Qed.

(** [order] only ever grows at its end. *)
Lemma part_order c v b :
  order (part c v b).1 = order b ∨ order (part c v b).1 = order b ++ [rank c].
Proof. part_inv c v b; auto. Qed.

Lemma part_order_prefix c v b : order b `prefix_of` order (part c v b).1.
Proof.
  destruct (part_order c v b) as [-> | ->]; [done|]. by apply prefix_app_r.
Qed.

Lemma part_unsorted c v b :
  ¬ nondecreasing (order b) → ¬ nondecreasing (order (part c v b).1).
Proof.
  intros Hb. destruct (part_order c v b) as [-> | ->]; [done|].
  by apply unsorted_snoc.
Qed.

(** A call that returns has put its rank at the end of [order] and its
    fragment at the end of [result]. *)
Lemma part_normal c v b b' :
  part c v b = (b', Normal tt) →
  seen c b = false ∧
  nondecreasing (order b ++ [rank c]) ∧
  b' = result_append (fragment c v) (order_push (rank c) (mark c b)).
Proof.
  destruct (part_cases c v b)
    as [(? & ->) | [(? & ? & ->) | (? & ? & ->)]]; [done..|].
  by intros [= <-].
Qed.

Lemma calls_cons c v ps b :
  calls ((c, v) :: ps) b =
    ((calls ps (part c v b).1).1, (part c v b).2 :: (calls ps (part c v b).1).2).
Proof.
  simpl. destruct (part c v b) as [b1 r]. simpl.
  by destruct (calls ps b1).
Qed.

Lemma calls_length ps b : length (calls ps b).2 = length ps.
Proof.
  revert b. induction ps as [|[c v] ps IH]; intros b; [done|].
  rewrite calls_cons. simpl. by rewrite IH.
Qed.

Lemma calls_errors ps b :
  duplicationError (calls ps b).1 = duplicationError b ∧
  orderError (calls ps b).1 = orderError b.
Proof.
  revert b. induction ps as [|[c v] ps IH]; intros b; [done|].
  rewrite calls_cons. simpl.
  destruct (IH (part c v b).1) as [-> ->]. apply part_errors.
Qed.

Lemma calls_seen_mono c' ps b :
  seen c' b = true → seen c' (calls ps b).1 = true.
Proof.
  revert b. induction ps as [|[c v] ps IH]; intros b Hs; [done|].
  rewrite calls_cons. simpl. by apply IH, part_seen_mono.
Qed.

Lemma calls_order_prefix ps b : order b `prefix_of` order (calls ps b).1.
Proof.
  revert b. induction ps as [|[c v] ps IH]; intros b; [done|].
  rewrite calls_cons. simpl.
  etrans; [apply (part_order_prefix c v)|apply IH].
Qed.
End RunFacts.

(** ** Ranks that made it into [order] *)

Section OrderFacts.
Import Builder.
Implicit Types (b : Builder.t) (c : category) (v : string).

(** A rank below one already in [order] cannot be pushed in order. *)
Lemma lower_rank_unsorted (l : list Z) (r x : Z) :
  r ∈ l → (x < r)%Z → ¬ nondecreasing (l ++ [x]).
Proof.
  intros Hr Hlt [_ Hall]%nondecreasing_snoc.
  apply (proj1 (Forall_forall _ _) Hall) in Hr. lia.
Qed.

Lemma committed_in_order ps b i c v :
  ps !! i = Some (c, v) → (calls ps b).2 !! i = Some (Normal tt) →
  rank c ∈ order (calls ps b).1.
Proof.
  revert b i. induction ps as [|[c0 v0] ps IH]; intros b i; [done|].
  rewrite calls_cons. destruct i as [|i]; simpl.
  - intros [= -> ->] [= Hr].
    eapply elem_of_prefix; [|apply calls_order_prefix].
    destruct (part c v b) as [b1 r] eqn:Hp. simpl in Hr. subst r.
    apply part_normal in Hp as (_ & _ & ->). simpl. set_solver.
  - apply IH.
Qed.

Lemma in_order_no_order_error ps b r :
  nondecreasing (order b ++ ranks ps) → r ∈ (calls ps b).2 →
  r = Normal tt ∨ r = Throw (duplicationError b).
Proof.
  revert b. induction ps as [|[c v] ps IH]; intros b Hs.
  - by intros ?%elem_of_nil.
  - rewrite calls_cons. simpl in *.
    assert (nondecreasing (order b ++ [rank c])) as Hc.
    { apply (StronglySorted_app_1_l _ _ (ranks ps)). by rewrite <-app_assoc. }
    destruct (part_cases c v b)
      as [(? & Hp) | [(? & ? & Hp) | (? & ? & Hp)]]; [|done|];
      rewrite Hp; simpl; intros [->|Hr]%elem_of_cons; auto.
    + apply IH; [|done].
      apply StronglySorted_app in Hs as (H12 & H1 & H2).
      apply StronglySorted_app; split_and!; [|done|by inv H2].
      intros x1 x2 ??. apply H12; [done|by right].
    + apply (IH _) in Hr.
      * by destruct c.
      * destruct c; simpl; by rewrite <-app_assoc.
Qed.
End OrderFacts.

(** ** Builders that are out of order, and builders that are not *)

Section ClosedFacts.
Import Builder.
Implicit Types (b : Builder.t) (c : category) (v : string).

Lemma order_not_duplicate e :
  SelectorOrderError e → ¬ DuplicateSelectorPartError e.
Proof. intros Ho Hd. by apply (duplicate_not_order e). Qed.

(** With [order] out of order, no append returns. *)
Lemma unsorted_part_throws c v b :
  ¬ nondecreasing (order b) → is_throw (part c v b).2 = true.
Proof.
  intros Hb.
  destruct (part_cases c v b)
    as [(? & ->) | [(? & ? & ->) | (? & Hs & _)]]; [done..|].
  by apply StronglySorted_app_1_l in Hs.
Qed.

Lemma unsorted_calls_throw ps b :
  ¬ nondecreasing (order b) →
  ¬ nondecreasing (order (calls ps b).1) ∧
  Forall (λ r, is_throw r = true) (calls ps b).2.
Proof.
  revert b. induction ps as [|[c v] ps IH]; intros b Hb; [by split|].
  rewrite calls_cons. simpl.
  destruct (IH (part c v b).1) as [H1 H2]; [by apply part_unsorted|].
  split; [done|]. constructor; [by apply unsorted_part_throws|done].
Qed.

Lemma string_app_assoc (s1 s2 s3 : string) :
  (s1 +:+ s2) +:+ s3 = s1 +:+ (s2 +:+ s3).
Proof.
  induction s1 as [|a s1 IH]; [reflexivity|].
  change (String a ((s1 +:+ s2) +:+ s3) = String a (s1 +:+ (s2 +:+ s3))).
  by rewrite IH.
Qed.

Lemma string_app_empty_r (s : string) : s +:+ "" = s.
Proof.
  induction s as [|a s IH]; [reflexivity|].
  change (String a (s +:+ "") = String a s). by rewrite IH.
Qed.

(** When every call returns, the text has grown by the fragments, first to
    last. *)
Lemma calls_result ps b :
  Forall (λ r, r = Normal tt) (calls ps b).2 →
  result (calls ps b).1 = result b +:+ fragments ps.
Proof.
  revert b. induction ps as [|[c v] ps IH]; intros b.
  - intros _. simpl. by rewrite string_app_empty_r.
  - rewrite calls_cons. simpl. intros [Hr Hrs]%Forall_cons.
    rewrite IH by done.
    destruct (part c v b) as [b1 r] eqn:Hp. simpl in *. subst r.
    apply part_normal in Hp as (_ & _ & ->).
    change (fragments ((c, v) :: ps)) with (fragment c v +:+ fragments ps).
    rewrite <-string_app_assoc. by destruct c.
Qed.
End ClosedFacts.

(** ** Calls through a reference *)

Section HeapFacts.
Implicit Types (h : Heap.t) (b : Builder.t).

Lemma call_stringify h ref b :
  Heap.objects h !! ref = Some b →
  Heap.call Builder.stringify ref h = Some (h, Normal (Builder.result b)).
Proof.
  intros Hb. unfold Heap.call. rewrite Hb. simpl.
  rewrite insert_id by done. by destruct h.
Qed.
End HeapFacts.

(** ** A failed append, case by case *)

Lemma failed_append_shape (c : category) (v : string) (b b' : Builder.t) (e : Error) :
  part c v b = (b', Throw e) →
  (seen c b = true ∧ e = Builder.duplicationError b ∧ b' = b) ∨
  (seen c b = false ∧ e = Builder.orderError b ∧
   ¬ nondecreasing (Builder.order b ++ [rank c]) ∧
   b' = Builder.order_push (rank c) (mark c b) ∧
   Builder.order (Builder.order_push (rank c) (mark c b)) = Builder.order b ++ [rank c] ∧
   (singleton_category c = true →
    seen c (Builder.order_push (rank c) (mark c b)) = true)).
Proof.
  destruct (part_cases c v b)
    as [(Hs & ->) | [(Hs & Hn & ->) | (Hs & Hn & ->)]]; [| |done].
  - intros [= <- <-]. by left.
  - intros [= <- <-]. right. split_and!; try done; by destruct c.
Qed.

(** ** Chains on the heap *)

Section ChainFacts.
Implicit Types (h : Heap.t) (b : Builder.t) (c : category) (v : string).

Lemma call_this_lookup (m : Builder.M unit) ref h b :
  Heap.objects h !! ref = Some b →
  Heap.call_this m ref h
  = Some (Heap.mk (<[ref := (m b).1]> (Heap.objects h)) (Heap.next h),
          handed ref (m b).2).
Proof.
  intros Hb. unfold Heap.call_this, Heap.call. rewrite Hb.
  by destruct (m b) as [b' [[]|e]].
Qed.

Lemma chained_cons c v ps b :
  chained ((c, v) :: ps) b =
    match (part c v b).2 with
    | Normal _ => chained ps (part c v b).1
    | Throw e => ((part c v b).1, Throw e)
    end.
Proof. simpl. by destruct (part c v b) as [b1 [[]|e]]. Qed.

(** The rest of a chain acts on the one object the entry point returned. *)
Lemma chain_rest_lookup ps objs nxt ref b :
  foldl (λ r p, and_then r p.1 p.2)
        (Some (Heap.mk (<[ref := b]> objs) nxt, Normal ref)) ps
  = Some (Heap.mk (<[ref := (chained ps b).1]> objs) nxt,
          handed ref (chained ps b).2).
Proof.
  revert b. induction ps as [|[c v] ps IH]; intros b; [done|].
  rewrite chained_cons. cbn [foldl and_then fst snd].
  rewrite (call_this_lookup _ _ _ b) by apply lookup_insert_eq.
  cbn [Heap.objects Heap.next]. rewrite insert_insert_eq.
  destruct (part c v b) as [b1 [[]|e]]; cbn [fst snd handed].
  - apply IH.
  - clear. induction ps as [|[c' v'] ps IH]; [done|]. apply IH.
Qed.

Lemma chained_errors ps b :
  Builder.duplicationError (chained ps b).1 = Builder.duplicationError b ∧
  Builder.orderError (chained ps b).1 = Builder.orderError b.
Proof.
  revert b. induction ps as [|[c v] ps IH]; intros b; [done|].
  rewrite chained_cons. pose proof (part_errors c v b) as [Hd Ho].
  destruct (part c v b) as [b1 [[]|e]]; simpl in *; [|done].
  destruct (IH b1) as [-> ->]. done.
Qed.

Lemma part_similar c v b1 b2 :
  similar b1 b2 →
  similar (part c v b1).1 (part c v b2).1 ∧
  thrown (part c v b1).2 = thrown (part c v b2).2.
Proof.
  destruct b1 as [i1 e1 p1 o1 r1 d1 x1], b2 as [i2 e2 p2 o2 r2 d2 x2].
  unfold similar, observable. simpl. intros ([= -> -> -> -> ->] & Hd & Ho).
  rewrite !part_spec.
  destruct c; simpl;
    repeat match goal with
           | |- context [if ?x then _ else _] => destruct x
           | |- context [decide ?P] => destruct (decide P)
           end; simpl; by rewrite ?Hd, ?Ho.
Qed.

End ChainFacts.

Section FacadeFacts.
Implicit Types (h : Heap.t) (b : Builder.t) (c : category) (v : string).

Lemma new_Builder_spec h :
  Heap.new_Builder h
  = (Heap.next h,
     Heap.mk (<[Heap.next h := made h]> (Heap.objects h))
             (S (S (S (Heap.next h))))).
Proof. reflexivity. Qed.

Lemma enter_spec e h :
  enter e h =
    match entry_builder e h with
    | Some br =>
        Some (Heap.mk (<[Heap.next h := br.1]> (Heap.objects h))
                      (S (S (S (Heap.next h)))),
              handed (Heap.next h) br.2)
    | None => None
    end.
Proof.
  destruct e as [c v|s1 k s2]; simpl.
  - destruct c; simpl;
      unfold cssSelectorBuilder.element, cssSelectorBuilder.id,
        cssSelectorBuilder.class, cssSelectorBuilder.attr,
        cssSelectorBuilder.pseudoClass, cssSelectorBuilder.pseudoElement;
      rewrite new_Builder_spec;
      rewrite (call_this_lookup _ _ _ (made h)) by apply lookup_insert_eq;
      cbn [Heap.objects Heap.next]; by rewrite insert_insert_eq.
  - unfold cssSelectorBuilder.combine, Heap.call_combine.
    rewrite new_Builder_spec. cbn [Heap.objects Heap.next].
    destruct (<[Heap.next h:=made h]> (Heap.objects h) !! s1) as [b1|]; [|done].
    destruct (<[Heap.next h:=made h]> (Heap.objects h) !! s2) as [b2|]; [|done].
    rewrite (call_this_lookup _ _ _ (made h)) by apply lookup_insert_eq.
    cbn [Heap.objects Heap.next]. by rewrite insert_insert_eq.
Qed.

Lemma chain_rest_thrown ps h e :
  foldl (λ r p, and_then r p.1 p.2) (Some (h, Throw e)) ps = Some (h, Throw e).
Proof. induction ps as [|[c v] ps IH]; [done|apply IH]. Qed.

Lemma chain_rest_none ps :
  foldl (λ r p, and_then r p.1 p.2) None ps = None.
Proof. induction ps as [|[c v] ps IH]; [done|apply IH]. Qed.

(** A chain allocates one builder, works on it alone, and leaves it at the
    new address. *)
Lemma run_chain_spec ch h :
  run_chain ch h =
    match chain_builder ch h with
    | Some br =>
        Some (Heap.mk (<[Heap.next h := br.1]> (Heap.objects h))
                      (S (S (S (Heap.next h)))),
              handed (Heap.next h) br.2)
    | None => None
    end.
Proof.
  unfold run_chain, chain_builder. rewrite enter_spec.
  destruct (entry_builder (chain_entry ch) h) as [[b [[]|e]]|]; simpl.
  - apply chain_rest_lookup.
  - apply chain_rest_thrown.
  - apply chain_rest_none.
Qed.

Lemma wf_fresh h : Heap.wf h → Heap.objects h !! Heap.next h = None.
Proof.
  intros Hwf. destruct (Heap.objects h !! Heap.next h) as [b|] eqn:Hb; [|done].
  apply Hwf in Hb. lia.
Qed.

Lemma wf_empty : Heap.wf Heap.empty.
Proof. intros r b Hb. simpl in Hb. by rewrite lookup_empty in Hb. Qed.

Lemma made_errors h :
  err_addr (Builder.duplicationError (made h)) = S (Heap.next h) ∧
  err_addr (Builder.orderError (made h)) = S (S (Heap.next h)) ∧
  errors_ok (made h).
Proof. by split_and!. Qed.

Lemma chain_builder_errors ch h br :
  chain_builder ch h = Some br →
  Builder.duplicationError br.1 = Builder.duplicationError (made h) ∧
  Builder.orderError br.1 = Builder.orderError (made h).
Proof.
  unfold chain_builder.
  assert (∀ b r, entry_builder (chain_entry ch) h = Some (b, r) →
            Builder.duplicationError b = Builder.duplicationError (made h) ∧
            Builder.orderError b = Builder.orderError (made h)) as Hentry.
  { intros b r. destruct (chain_entry ch) as [c v|s1 k s2]; simpl.
    - intros [= Hp]. pose proof (part_errors c v (made h)) as Herr.
      by rewrite Hp in Herr.
    - repeat case_match; try done.
      unfold Builder.combine, Builder.modify. by intros [= <- _]. }
  destruct (entry_builder (chain_entry ch) h) as [[b [[]|e]]|] eqn:He; [| |done].
  - intros [= <-]. destruct (chained_errors (chain_rest ch) b) as [-> ->].
    by eapply Hentry.
  - intros [= <-]. by eapply Hentry.
Qed.

(** Running a chain leaves everything that existed as it was, and puts the
    one new builder at an address that was free. *)
Lemma run_chain_frame ch h h' r :
  Heap.wf h → run_chain ch h = Some (h', r) →
  Heap.wf h' ∧
  Heap.objects h ⊆ Heap.objects h' ∧
  Heap.next h ≤ Heap.next h' ∧
  (∀ ref, r = Normal ref →
     Heap.objects h !! ref = None ∧ is_Some (Heap.objects h' !! ref)).
Proof.
  intros Hwf. rewrite run_chain_spec.
  destruct (chain_builder ch h) as [br|] eqn:Hbr; [|done].
  intros [= <- <-]. cbn [Heap.objects Heap.next].
  pose proof (wf_fresh h Hwf) as Hfresh.
  split_and!.
  - intros r b. cbn [Heap.objects Heap.next].
    destruct (decide (r = Heap.next h)) as [->|Hne].
    + rewrite lookup_insert_eq. intros [= <-].
      destruct (chain_builder_errors _ _ _ Hbr) as [-> ->]. simpl. lia.
    + rewrite lookup_insert_ne by done. intros Hb%Hwf. lia.
  - by apply insert_subseteq.
  - lia.
  - intros ref Hr. destruct br as [b [[]|e]]; [|done].
    injection Hr as <-. split; [done|]. rewrite lookup_insert_eq. by eexists.
Qed.

Lemma run_all_frame chs h h' :
  Heap.wf h → run_all chs h = Some h' →
  Heap.wf h' ∧ Heap.objects h ⊆ Heap.objects h' ∧ Heap.next h ≤ Heap.next h'.
Proof.
  revert h. induction chs as [|ch chs IH]; intros h Hwf; simpl.
  - by intros [= <-].
  - destruct (run_chain ch h) as [[h1 r]|] eqn:Hrun; [|done].
    intros Hall.
    destruct (run_chain_frame _ _ _ _ Hwf Hrun) as (Hwf1 & Hsub1 & Hle1 & _).
    destruct (IH _ Hwf1 Hall) as (Hwf' & Hsub' & Hle').
    split_and!; [done|by etrans|lia].
Qed.
End FacadeFacts.

Section IndependenceFacts.
Implicit Types (h : Heap.t) (b : Builder.t) (c : category) (v : string).

Lemma made_similar h1 h2 : similar (made h1) (made h2).
Proof. by split_and!. Qed.


Lemma operand_lookup h a sa :
  Heap.wf h → Heap.objects h !! a = Some sa →
  <[Heap.next h := made h]> (Heap.objects h) !! a = Some sa.
Proof.
  intros Hwf Ha. rewrite lookup_insert_ne; [done|].
  apply Hwf in Ha. lia.
Qed.

End IndependenceFacts.

Section RenderFacts.
Implicit Types (h : Heap.t) (b : Builder.t) (c : category) (v : string).

Lemma chained_result ps b b' :
  chained ps b = (b', Normal tt) →
  Builder.result b' = Builder.result b +:+ fragments ps.
Proof.
  revert b. induction ps as [|[c v] ps IH]; intros b.
  - intros [= <-]. simpl. by rewrite string_app_empty_r.
  - rewrite chained_cons.
    destruct (part c v b) as [b1 [[]|e]] eqn:Hp; [|done]. simpl.
    intros ->%IH. apply part_normal in Hp as (_ & _ & ->).
    change (fragments ((c, v) :: ps)) with (fragment c v +:+ fragments ps).
    rewrite <-string_app_assoc. by destruct c.
Qed.

Lemma two_selectors_wf : Heap.wf two_selectors.
Proof.
  refine (proj1 (run_all_frame two_selector_chains Heap.empty two_selectors
                   wf_empty _)).
  by vm_compute.
Qed.

Lemma stringify_times_spec n ref h b :
  Heap.objects h !! ref = Some b →
  stringify_times n ref h = Some (h, replicate n (Normal (Builder.result b))).
Proof.
  intros Hb. induction n as [|n IH]; [done|].
  simpl. by rewrite (call_stringify h ref b), IH.
Qed.
End RenderFacts.

(** ** The errors a builder throws *)

Section ErrorFacts.
Implicit Types (h : Heap.t) (b : Builder.t) (c : category) (v : string).

Lemma part_thrown c v b e :
  (part c v b).2 = Throw e →
  e = Builder.duplicationError b ∨ e = Builder.orderError b.
Proof.
  destruct (part_cases c v b)
    as [(_ & ->) | [(_ & _ & ->) | (_ & _ & ->)]]; simpl;
    [intros [= <-]; by left|intros [= <-]; by right|done].
Qed.

Lemma calls_thrown ps b e :
  Throw e ∈ (calls ps b).2 →
  e = Builder.duplicationError b ∨ e = Builder.orderError b.
Proof.
  revert b. induction ps as [|[c v] ps IH]; intros b.
  - by intros ?%elem_of_nil.
  - rewrite calls_cons. simpl. intros [Hp|Hin]%elem_of_cons.
    + by apply (part_thrown c v).
    + apply IH in Hin. by destruct (part_errors c v b) as [<- <-].
Qed.
End ErrorFacts.

(** ** Calls on builders that exist, and chains that run *)

Section BetweenFacts.
Implicit Types (h : Heap.t) (b : Builder.t) (c : category) (v : string).


Lemma entry_builder_extend e h h1 :
  Heap.wf h → operands_in h e →
  Heap.wf h1 → Heap.objects h ⊆ Heap.objects h1 →
  ∃ b r b1 r1,
    entry_builder e h = Some (b, r) ∧ entry_builder e h1 = Some (b1, r1) ∧
    similar b b1 ∧ thrown r = thrown r1.
Proof.
  intros Hwf Hops Hwf1 Hsub.
  destruct e as [c v|s1 k s2]; cbn [entry_builder].
  - destruct (part_similar c v _ _ (made_similar h h1)) as [Hs Ht].
    destruct (part c v (made h)) as [b r], (part c v (made h1)) as [b1 r1].
    by eexists _, _, _, _.
  - destruct Hops as [[sa Ha] [sb Hb]].
    rewrite (operand_lookup h s1 sa), (operand_lookup h s2 sb) by done.
    rewrite (operand_lookup h1 s1 sa), (operand_lookup h1 s2 sb)
      by eauto using lookup_weaken.
    unfold Builder.combine, Builder.modify.
    eexists _, _, _, _. split_and!; [done..|by split_and!|done].
Qed.

(** A chain whose operands exist always runs: [None] stands for a dangling
    reference and for nothing else. *)
Lemma run_chain_defined e ps h :
  Heap.wf h → operands_in h e → is_Some (run_chain (mkChain e ps) h).
Proof.
  intros Hwf Hops. rewrite run_chain_spec. unfold chain_builder.
  cbn [chain_entry chain_rest].
  destruct (entry_builder_extend e h h Hwf Hops Hwf (reflexivity _))
    as (b & r & _ & _ & -> & _).
  destruct r as [[]|e0]; by eexists.
Qed.

Lemma run_all_parts_defined chs h :
  Forall (λ ch, ∃ c v, chain_entry ch = ViaPart c v) chs →
  is_Some (run_all chs h).
Proof.
  revert h. induction chs as [|[e ps] chs IH]; intros h; [by eexists|].
  intros [(c & v & He) Hall]%Forall_cons. simpl in He. subst e.
  cbn [run_all]. rewrite run_chain_spec. unfold chain_builder.
  cbn [chain_entry chain_rest entry_builder].
  destruct (part c v (made h)) as [b [[]|e0]]; by apply IH.
Qed.
End BetweenFacts.

(** ** Order, read position by position *)

Section AdjacentFacts.
Implicit Types (l : list Z) (b : Builder.t) (c : category) (v : string).

(** In order means: no entry is followed by a smaller one. *)
Lemma nondecreasing_adjacent l :
  nondecreasing l ↔
  ∀ i x y, l !! i = Some x → l !! S i = Some y → (x <= y)%Z.
Proof.
  induction l as [|a l IH].
  - split; [by intros _ i x y ?|constructor].
  - rewrite StronglySorted_cons, IH. split.
    + intros [Ha Hl] [|i] x y; simpl.
      * intros [= <-] Hy. apply (proj1 (Forall_forall _ _) Ha).
        by eapply list_elem_of_lookup_2.
      * apply Hl.
    + intros H. assert (∀ i x y, l !! i = Some x → l !! S i = Some y → (x <= y)%Z)
        as Hl by (intros i; apply (H (S i))).
      split; [|done].
      destruct l as [|y l]; [constructor|].
      pose proof (H 0 a y eq_refl eq_refl) as Hay.
      apply IH in Hl. apply StronglySorted_cons in Hl as [Hy _].
      constructor; [done|].
      eapply Forall_impl; [exact Hy|]. intros z ?; simpl in *. lia.
Qed.

Lemma unsorted_descent l :
  ¬ nondecreasing l ↔
  ∃ i x y, l !! i = Some x ∧ l !! S i = Some y ∧ (y < x)%Z.
Proof.
  split.
  - induction l as [|a l IH]; intros Hun; [destruct Hun; constructor|].
    destruct (decide (nondecreasing l)) as [Hl|Hl].
    + destruct l as [|y l]; [destruct Hun; repeat constructor|].
      destruct (decide (a <= y)%Z) as [Hay|Hay].
      * destruct Hun. constructor; [done|].
        apply StronglySorted_cons in Hl as [Hy _].
        constructor; [done|].
        eapply Forall_impl; [exact Hy|]. intros z ?; simpl in *. lia.
      * exists 0, a, y. split_and!; [done..|lia].
    + destruct (IH Hl) as (i & x & y & ?). by exists (S i), x, y.
  - intros (i & x & y & Hx & Hy & Hlt) Hs.
    pose proof (proj1 (nondecreasing_adjacent l) Hs i x y Hx Hy). lia.
Qed.

(** Every entry of a list in order is at most its last one. *)
Lemma nondecreasing_last l x :
  nondecreasing l → last l = Some x → Forall (λ y, (y <= x)%Z) l.
Proof.
  destruct l as [|a l _] using rev_ind; [done|].
  rewrite last_snoc. intros [_ Hall]%nondecreasing_snoc [= <-].
  apply Forall_app. split; [done|]. by repeat constructor.
Qed.

Lemma snoc_in_order l r :
  nondecreasing l →
  nondecreasing (l ++ [r]) ↔ ∀ x, last l = Some x → (x <= r)%Z.
Proof.
  intros Hl. rewrite nondecreasing_snoc. split.
  - intros [_ Hall] x Hx. apply (proj1 (Forall_forall _ _) Hall).
    destruct l as [|a l _] using rev_ind; [done|].
    rewrite last_snoc in Hx. injection Hx as <-. set_solver.
  - intros Hlast. split; [done|].
    destruct (last l) as [x|] eqn:Hx.
    + eapply Forall_impl; [by apply nondecreasing_last|].
      intros y ?; simpl in *. specialize (Hlast x eq_refl). lia.
    + apply last_None in Hx as ->. constructor.
Qed.
End AdjacentFacts.

(** ** Which runs of calls return throughout *)

Section ValidFacts.
Import Builder.
Implicit Types (b : Builder.t) (c : category) (v : string).

Lemma times_cons c' c v ps :
  times c' ((c, v) :: ps) = (if decide (c = c') then 1 else 0) + times c' ps.
Proof.
  unfold times. rewrite filter_cons. simpl. by case_decide.
Qed.

Lemma seen_singleton c b : seen c b = true → singleton_category c = true.
Proof. by destruct c. Qed.

Lemma seen_after_append c' c s b :
  seen c' (result_append s (order_push (rank c) (mark c b)))
  = if decide (c = c') then singleton_category c else seen c' b.
Proof. destruct c, c'; by case_decide. Qed.

Lemma order_after_append c s b :
  order (result_append s (order_push (rank c) (mark c b))) = order b ++ [rank c].
Proof. by destruct c. Qed.

Lemma calls_all_return_iff ps b :
  nondecreasing (order b) →
  Forall (λ r, r = Normal tt) (calls ps b).2 ↔
  nondecreasing (order b ++ ranks ps) ∧
  ∀ c, singleton_category c = true →
       times c ps + (if seen c b then 1 else 0) ≤ 1.
Proof.
  revert b. induction ps as [|[c v] ps IH]; intros b Hb.
  - simpl. rewrite app_nil_r. split; [|done].
    intros _. split; [done|]. intros c _.
    change (times c []) with 0. destruct (seen c b); lia.
  - rewrite calls_cons. cbn [snd fst]. rewrite Forall_cons.
    change (ranks ((c, v) :: ps)) with (rank c :: ranks ps).
    rewrite (cons_middle (rank c)), app_assoc.
    destruct (part_cases c v b)
      as [(Hs & ->) | [(Hs & Hn & ->) | (Hs & Hn & ->)]]; cbn [fst snd].
    + split; [by intros [? _]|]. intros [_ Hc].
      specialize (Hc c (seen_singleton _ _ Hs)).
      rewrite times_cons, Hs, decide_True in Hc by done. lia.
    + split; [by intros [? _]|]. intros [Hsorted _].
      by apply StronglySorted_app_1_l in Hsorted.
    + rewrite IH by by rewrite order_after_append.
      rewrite order_after_append.
      split.
      * intros (_ & Hsorted & Hc). split; [done|]. intros c' Hc'.
        specialize (Hc c' Hc'). rewrite seen_after_append in Hc.
        rewrite times_cons. case_decide as Hcc; [subst c'|lia].
        rewrite Hc' in Hc. rewrite Hs. lia.
      * intros (Hsorted & Hc). split_and!; [done..|]. intros c' Hc'.
        specialize (Hc c' Hc'). rewrite times_cons in Hc.
        rewrite seen_after_append. case_decide as Hcc; [subst c'|lia].
        rewrite Hc'. rewrite Hs in Hc. lia.
Qed.

(** Failed calls add nothing to the text. *)
Lemma calls_result_returned ps b :
  result (calls ps b).1 = result b +:+ fragments (returned ps (calls ps b).2).
Proof.
  revert b. induction ps as [|[c v] ps IH]; intros b.
  - simpl. by rewrite string_app_empty_r.
  - rewrite calls_cons. cbn [fst snd]. rewrite IH.
    destruct (part_cases c v b)
      as [(Hs & ->) | [(Hs & Hn & ->) | (Hs & Hn & ->)]]; cbn [fst snd returned].
    + done.
    + by destruct c.
    + change (fragments ((c, v) :: ?l)) with (fragment c v +:+ fragments l).
      rewrite <-string_app_assoc. by destruct c.
Qed.

Lemma returned_sublist ps rs : returned ps rs `sublist_of` ps.
Proof.
  revert rs. induction ps as [|p ps IH]; intros [|[[]|e] rs]; simpl;
    try done; try apply sublist_nil_l.
  - by apply sublist_skip.
  - by apply sublist_cons.
Qed.
End ValidFacts.

(** ** What holds of every builder a program can hold *)

Section ReachableFacts.
Import Builder.
Implicit Types (b : Builder.t) (c : category) (v : string).

Lemma occurrences_snoc r l x :
  occurrences r (l ++ [x]) = occurrences r l + (if decide (x = r) then 1 else 0).
Proof.
  unfold occurrences. rewrite filter_app, length_app, filter_cons, filter_nil.
  by case_decide.
Qed.

Lemma rank_bounds c : (0 <= rank c <= 5)%Z.
Proof. destruct c; simpl; lia. Qed.

Lemma rank_inj c c' : rank c = rank c' → c = c'.
Proof. by destruct c, c'. Qed.

Lemma order_after_push c b :
  order (order_push (rank c) (mark c b)) = order b ++ [rank c].
Proof. by destruct c. Qed.

Lemma seen_after_push c' c b :
  seen c' (order_push (rank c) (mark c b))
  = if decide (c = c') then singleton_category c else seen c' b.
Proof. destruct c, c'; by case_decide. Qed.

Lemma consistent_with_ext l (f g : category → bool) :
  (∀ c, g c = f c) → consistent_with l f → consistent_with l g.
Proof.
  intros Hfg [Hr Hc]. split; [done|]. intros c Hs. by rewrite Hfg, Hc.
Qed.

Lemma consistent_snoc c b :
  seen c b = false → consistent_with (order b) (λ c', seen c' b) →
  consistent_with (order b ++ [rank c])
    (λ c', if decide (c = c') then singleton_category c else seen c' b).
Proof.
  intros Hs [Hr Hc]. split.
  - apply Forall_app. split; [done|]. repeat constructor; apply rank_bounds.
  - intros c' Hc'. rewrite occurrences_snoc, (Hc c' Hc').
    destruct (decide (c = c')) as [->|Hne].
    + rewrite decide_True, Hs, Hc' by done. done.
    + rewrite decide_False by (by intros ?%rank_inj).
      destruct (seen c' b); lia.
Qed.

Lemma consistent_part c v b : consistent b → consistent (part c v b).1.
Proof.
  unfold consistent. intros Hb.
  destruct (part_cases c v b)
    as [(Hs & ->) | [(Hs & Hn & ->) | (Hs & Hn & ->)]]; cbn [fst]; [done| |].
  - rewrite order_after_push.
    eapply consistent_with_ext; [|by apply consistent_snoc].
    intros c'. apply seen_after_push.
  - rewrite order_after_append.
    eapply consistent_with_ext; [|by apply consistent_snoc].
    intros c'. apply seen_after_append.
Qed.

Lemma reachable_consistent b : reachable b → consistent b.
Proof.
  induction 1 as [d o|c v b _ IH|s1 k s2 b _ IH].
  - split; [constructor|]. intros c _. by destruct c.
  - by apply consistent_part.
  - destruct IH as [Hr Hc]. split; [done|]. intros c Hc'.
    specialize (Hc c Hc'). by destruct c.
Qed.

Lemma reachable_calls ps b : reachable b → reachable (calls ps b).1.
Proof.
  revert b. induction ps as [|[c v] ps IH]; intros b Hb; [done|].
  rewrite calls_cons. cbn [fst]. by apply IH, reach_part.
Qed.
End ReachableFacts.

(** ** The facade, call by call *)

Section EntryFacts.
Implicit Types (h : Heap.t) (b : Builder.t) (c : category) (v : string).

Lemma chained_normal_iff ps b :
  (chained ps b).2 = Normal tt ↔ Forall (λ r, r = Normal tt) (calls ps b).2.
Proof.
  revert b. induction ps as [|[c v] ps IH]; intros b; [by split|].
  rewrite chained_cons, calls_cons. cbn [snd]. rewrite Forall_cons.
  destruct (part c v b) as [b1 [[]|e]]; cbn [fst snd].
  - rewrite IH. split; [by split|by intros [_ ?]].
  - split; [done|by intros [? _]].
Qed.

(** The first append on a builder with no history returns. *)
Lemma first_append b c v :
  Builder.order b = [] → seen c b = false →
  part c v b
  = (Builder.result_append (fragment c v) (Builder.order_push (rank c) (mark c b)),
     Normal tt).
Proof.
  intros Ho Hs.
  destruct (part_cases c v b)
    as [(? & _) | [(_ & Hn & _) | (_ & _ & ->)]]; [congruence| |done].
  destruct Hn. rewrite Ho. repeat constructor.
Qed.

Lemma facade_part_spec c v h :
  facade_part c v h
  = Some (Heap.mk (<[Heap.next h :=
                      Builder.result_append (fragment c v)
                        (Builder.order_push (rank c) (mark c (made h)))]>
                     (Heap.objects h))
                  (S (S (S (Heap.next h)))),
          Normal (Heap.next h)).
Proof.
  pose proof (enter_spec (ViaPart c v) h) as He.
  cbn [enter entry_builder] in He. rewrite He.
  rewrite (first_append (made h) c v) by (done || by destruct c). done.
Qed.

(** One [combine] through the facade. *)
Lemma combine_step h A B k a b :
  Heap.wf h → Heap.objects h !! A = Some a → Heap.objects h !! B = Some b →
  ∃ h1,
    cssSelectorBuilder.combine A k B h = Some (h1, Normal (Heap.next h)) ∧
    Heap.wf h1 ∧
    Heap.objects h ⊆ Heap.objects h1 ∧
    Heap.objects h1 !! Heap.next h
    = Some (Builder.result_append
              (combined_text (Builder.result a) k (Builder.result b)) (made h)).
Proof.
  intros Hwf Ha Hb.
  pose proof (enter_spec (ViaCombine A k B) h) as He.
  cbn [enter entry_builder] in He.
  rewrite (operand_lookup h A a), (operand_lookup h B b) in He by done.
  cbn [fst snd handed Builder.combine Builder.modify] in He.
  eexists. split; [exact He|].
  pose proof (run_chain_frame (mkChain (ViaCombine A k B) []) h) as Hframe.
  unfold run_chain in Hframe. cbn [chain_entry chain_rest foldl enter] in Hframe.
  destruct (Hframe _ _ Hwf He) as (Hwf1 & Hsub & _ & _).
  split_and!; [done..|]. cbn [Heap.objects]. by rewrite lookup_insert_eq.
Qed.

Lemma wf_lookup_ne h A a :
  Heap.wf h → Heap.objects h !! A = Some a → A ≠ Heap.next h.
Proof. intros Hwf Ha%Hwf. lia. Qed.
End EntryFacts.

Lemma documented_wf : Heap.wf documented.
Proof.
  refine (proj1 (run_all_frame documented_chains Heap.empty documented
                   wf_empty _)).
  by vm_compute.
Qed.

Section RecordFacts.
Import Builder.
Implicit Types (b : Builder.t) (c : category) (v : string).

(** When every call returns, [order] and the flags record the calls. *)
Lemma calls_all_returned_state ps b :
  Forall (λ r, r = Normal tt) (calls ps b).2 →
  order (calls ps b).1 = order b ++ ranks ps ∧
  ∀ c, seen c (calls ps b).1 = true ↔
       seen c b = true ∨ (singleton_category c = true ∧ 0 < times c ps).
Proof.
  revert b. induction ps as [|[c v] ps IH]; intros b.
  - intros _. simpl. rewrite app_nil_r. split; [done|].
    intros c. change (times c []) with 0. split; [by left|].
    intros [?|[_ ?]]; [done|lia].
  - rewrite calls_cons. cbn [fst snd]. intros [Hr Hrs]%Forall_cons.
    destruct (IH _ Hrs) as [Ho Hf].
    destruct (part c v b) as [b1 r] eqn:Hp. cbn [fst snd] in *. subst r.
    apply part_normal in Hp as (Hs & _ & ->).
    rewrite Ho, order_after_append. split.
    + change (ranks ((c, v) :: ps)) with (rank c :: ranks ps).
      by rewrite <-app_assoc.
    + intros c'. rewrite Hf, seen_after_append, times_cons.
      destruct (decide (c = c')) as [->|Hne].
      * split; [|intros [?|[? _]]; [congruence|by left]].
        intros [?|[? _]]; right; (split; [done|lia]).
      * split; (intros [?|[? ?]]; [by left|right; split; [done|lia]]).
Qed.
End RecordFacts.

(** ** A chain amid the calls of other chains *)

Section AmidFacts.
Implicit Types (h : Heap.t) (b : Builder.t) (c : category) (v : string).










End AmidFacts.

(** * The behaviour of the builder *)

(** ** Failed appends *)

(** C1, as the spec words it, does not hold.  After [id('main')], the call
    [element('div')] throws, and the builder it was made on has changed:
    [elementUsed] is now set and [order] has grown from [[1]] to [[1; 0]]. *)
Lemma failed_append_mutates :
  let b := (Builder.id "main" fresh).1 in
  observable b = (false, true, false, [1%Z], "#main") ∧
  (Builder.element "div" b).2 = Throw (Builder.orderError fresh) ∧
  observable (Builder.element "div" b).1 = (true, true, false, [1%Z; 0%Z], "#main") ∧
  observable (Builder.element "div" b).1 ≠ observable b.
Proof. vm_compute. split_and!; [reflexivity..|discriminate]. Qed.

(** C1, amended.  A part-append that throws never changes [result].  If it
    throws because its flag was already set, it throws [duplicationError]
    and changes nothing at all.  Otherwise it throws [orderError] after
    having set its flag (for [element], [id], [pseudoElement]) and pushed its
    rank on [order], and both assignments stay. *)
Theorem failed_append_effect (c : category) (v : string) (b b' : Builder.t) (e : Error) :
  part c v b = (b', Throw e) →
  Builder.result b' = Builder.result b ∧
  ((seen c b = true ∧ e = Builder.duplicationError b ∧ b' = b) ∨
   (seen c b = false ∧ e = Builder.orderError b ∧
    ¬ nondecreasing (Builder.order b ++ [rank c]) ∧
    b' = Builder.order_push (rank c) (mark c b) ∧
    Builder.order b' = Builder.order b ++ [rank c] ∧
    (singleton_category c = true → seen c b' = true))).
Proof.
  destruct (part_cases c v b)
    as [(Hs & ->) | [(Hs & Hn & ->) | (Hs & Hn & ->)]]; [| |done].
  - intros [= <- <-]. split; [done|]. by left.
  - intros [= <- <-]. split; [by destruct c|]. right.
    split_and!; try done; by destruct c.
Qed.

Lemma failed_append_effect_witness :
  let b := (Builder.id "main" fresh).1 in
  let b' := Builder.mk true true false [1%Z; 0%Z] "#main"
              (Builder.duplicationError fresh) (Builder.orderError fresh) in
  let e := Builder.orderError fresh in
  Builder.result b' = Builder.result b ∧
  ((seen Element b = true ∧ e = Builder.duplicationError b ∧ b' = b) ∨
   (seen Element b = false ∧ e = Builder.orderError b ∧
    ¬ nondecreasing (Builder.order b ++ [rank Element]) ∧
    b' = Builder.order_push (rank Element) (mark Element b) ∧
    Builder.order b' = Builder.order b ++ [rank Element] ∧
    (singleton_category Element = true → seen Element b' = true))).
Proof.
  apply (failed_append_effect Element "div"). vm_compute. reflexivity.
Defined.

(** ** Which error, when *)

(** C2, as the spec words it, does not hold.  After [element('div')] and
    [class('c')] have both returned, [element('x')] appends rank 0 below the
    committed rank 2, yet what it throws is not the order error: the flag
    test comes first and throws the duplication error. *)
Lemma lower_rank_without_order_error :
  let run := calls [(Element, "div"); (Class, "c")] fresh in
  run.2 = [Normal tt; Normal tt] ∧
  Builder.order run.1 = [0%Z; 2%Z] ∧
  (rank Element < rank Class)%Z ∧
  (part Element "x" run.1).2 = Throw (Builder.duplicationError fresh) ∧
  ¬ SelectorOrderError (Builder.duplicationError fresh).
Proof.
  vm_compute. split_and!; [reflexivity| reflexivity| reflexivity| reflexivity|].
  intros H. discriminate H.
Qed.

(** C2, amended.  On a new builder:
    - a run of appends whose ranks never decrease throws no order error (a
      call in it either returns or throws the duplication error);
    - after any run of appends, an append whose rank is strictly below the
      rank of a call of the run that returned does throw: the duplication
      error when its flag is already set, the order error otherwise. *)
Theorem order_error_rule (d o : Error) (ps : list (category * string)) :
  DuplicateSelectorPartError d → SelectorOrderError o →
  let run := calls ps (Builder.constructor d o) in
  (nondecreasing (ranks ps) →
   ∀ e, Throw e ∈ run.2 → DuplicateSelectorPartError e ∧ ¬ SelectorOrderError e) ∧
  (∀ i c' v' c v,
     ps !! i = Some (c', v') → run.2 !! i = Some (Normal tt) →
     (rank c < rank c')%Z →
     ∃ e, (part c v run.1).2 = Throw e ∧
          if seen c run.1
          then DuplicateSelectorPartError e ∧ ¬ SelectorOrderError e
          else SelectorOrderError e).
Proof.
  intros Hd Ho run. split.
  - intros Hs e He.
    apply in_order_no_order_error in He as [He|[= ->]]; [done| |done].
    split; [done|by apply duplicate_not_order].
  - intros i c' v' c v Hi Hr Hlt.
    pose proof (committed_in_order _ _ _ _ _ Hi Hr) as Hin.
    pose proof (lower_rank_unsorted _ _ _ Hin Hlt) as Hun.
    destruct (calls_errors ps (Builder.constructor d o)) as [Hde Hoe].
    fold run in Hin, Hun, Hde, Hoe. simpl in Hde, Hoe.
    destruct (part_cases c v run.1)
      as [(Hs & ->) | [(Hs & Hn & ->) | (Hs & Hn & _)]]; [| |done];
      rewrite Hs; eexists; (split; [done|]); simpl.
    + rewrite Hde. split; [done|by apply duplicate_not_order].
    + by rewrite Hoe.
Qed.

Lemma order_error_rule_witness :
  let d := mkError 1 duplication_message in
  let o := mkError 2 order_message in
  let ps := [(Id, "main"); (Class, "container")] in
  let run := calls ps (Builder.constructor d o) in
  (∀ e, Throw e ∈ run.2 → DuplicateSelectorPartError e ∧ ¬ SelectorOrderError e) ∧
  (∃ e, (part Element "div" run.1).2 = Throw e ∧ SelectorOrderError e).
Proof.
  intros d o ps run.
  destruct (order_error_rule d o ps eq_refl eq_refl) as [Ha Hb]. split.
  - apply Ha. change (nondecreasing [1; 2]%Z). repeat constructor. lia.
  - exact (Hb 1 Class "container" Element "div" eq_refl eq_refl eq_refl).
Defined.

(** C3.  Once [element] has been called on a builder, whatever it did and
    whatever appends came after, calling [element] again throws the
    duplication error and changes nothing; the same holds of [id] and of
    [pseudoElement].  [class], [attr] and [pseudoClass] never throw the
    duplication error, on any builder: when they throw, it is the order
    error. *)
Theorem duplicate_error_rule (b : Builder.t) :
  errors_ok b →
  (∀ c v1 ps v2,
     singleton_category c = true →
     let b' := (calls ps (part c v1 b).1).1 in
     ∃ e, part c v2 b' = (b', Throw e) ∧ DuplicateSelectorPartError e) ∧
  (∀ c v e,
     singleton_category c = false →
     (part c v b).2 = Throw e →
     SelectorOrderError e ∧ ¬ DuplicateSelectorPartError e).
Proof.
  intros [Hd Ho]. split.
  - intros c v1 ps v2 Hc b'.
    assert (seen c b' = true) as Hs by by apply calls_seen_mono, part_marks.
    destruct (part_cases c v2 b')
      as [(_ & ->) | [(? & _) | (? & _)]]; [|congruence..].
    eexists; split; [done|]. unfold b'.
    destruct (calls_errors ps (part c v1 b).1) as [-> _].
    by destruct (part_errors c v1 b) as [-> _].
  - intros c v e Hc.
    pose proof (repeatable_never_seen c b Hc) as Hs.
    destruct (part_cases c v b)
      as [(? & _) | [(_ & _ & ->) | (_ & _ & ->)]]; [congruence| |done].
    intros [= <-]. split; [done|by apply order_not_duplicate].
Qed.

Lemma duplicate_error_rule_witness :
  (∃ e, part Element "table"
          (calls [(Id, "main"); (Class, "container"); (Class, "draggable")]
             (part Element "div" fresh).1).1
        = ((calls [(Id, "main"); (Class, "container"); (Class, "draggable")]
              (part Element "div" fresh).1).1, Throw e)
        ∧ DuplicateSelectorPartError e) ∧
  (∀ e, (part Class "c" (part Attribute "a" fresh).1).2 = Throw e →
        SelectorOrderError e ∧ ¬ DuplicateSelectorPartError e).
Proof.
  split.
  - destruct (duplicate_error_rule fresh (conj eq_refl eq_refl)) as [H _].
    exact (H Element "div" [(Id, "main"); (Class, "container"); (Class, "draggable")]
             "table" eq_refl).
  - destruct (duplicate_error_rule (part Attribute "a" fresh).1
                (conj eq_refl eq_refl)) as [_ H].
    exact (λ e, H Class "c" e eq_refl).
Defined.

(** C4.  When [element], [id] or [pseudoElement] is called with its flag
    already set on a builder where pushing its rank would also put [order]
    out of order, the flag test comes first: the call throws the duplication
    error, not the order error, and assigns nothing. *)
Theorem duplicate_check_first (c : category) (v : string) (b : Builder.t) :
  errors_ok b →
  seen c b = true →
  ¬ nondecreasing (Builder.order b ++ [rank c]) →
  singleton_category c = true ∧
  part c v b = (b, Throw (Builder.duplicationError b)) ∧
  DuplicateSelectorPartError (Builder.duplicationError b) ∧
  ¬ SelectorOrderError (Builder.duplicationError b).
Proof.
  intros [Hd Ho] Hs _. split; [by destruct c|].
  destruct (part_cases c v b)
    as [(_ & ->) | [(? & _) | (? & _)]]; [|congruence..].
  split_and!; [done..|by apply duplicate_not_order].
Qed.

Lemma duplicate_check_first_witness :
  let b := (calls [(Element, "div"); (Class, "container")] fresh).1 in
  singleton_category Element = true ∧
  part Element "table" b = (b, Throw (Builder.duplicationError b)) ∧
  DuplicateSelectorPartError (Builder.duplicationError b) ∧
  ¬ SelectorOrderError (Builder.duplicationError b).
Proof.
  apply (duplicate_check_first Element "table"
           (calls [(Element, "div"); (Class, "container")] fresh).1).
  - split; reflexivity.
  - reflexivity.
  - apply (lower_rank_unsorted _ 2%Z); [|reflexivity].
    vm_compute. apply list_elem_of_In. right. left. reflexivity.
Defined.

(** C10.  Once an append has thrown the order error, the rank it pushed is
    still in [order], [order] is out of order and stays so, and every later
    append of any category throws; for [element], [id] and [pseudoElement]
    the flag set by the failed call makes a repeat of it throw the
    duplication error. *)
Theorem order_failure_closes_builder
    (c : category) (v : string) (b b' : Builder.t) (e : Error) :
  errors_ok b →
  part c v b = (b', Throw e) →
  SelectorOrderError e →
  Builder.order b' = Builder.order b ++ [rank c] ∧
  (∀ ps, ¬ nondecreasing (Builder.order (calls ps b').1) ∧
         Forall (λ r, is_throw r = true) (calls ps b').2) ∧
  (∀ c' v', is_throw (part c' v' b').2 = true) ∧
  (singleton_category c = true →
   ∀ v', part c v' b' = (b', Throw (Builder.duplicationError b')) ∧
         DuplicateSelectorPartError (Builder.duplicationError b')).
Proof.
  intros [Hd Ho] Hp He.
  destruct (failed_append_shape c v b b' e Hp)
    as [(_ & -> & _) | (Hs & -> & Hn & -> & Hord & Hseen)].
  { by apply duplicate_not_order in Hd. }
  assert (¬ nondecreasing (Builder.order (Builder.order_push (rank c) (mark c b))))
    as Hun by by rewrite Hord.
  split_and!; [done| |by intros; apply unsorted_part_throws|].
  - intros ps. by apply unsorted_calls_throw.
  - intros Hc v'. specialize (Hseen Hc).
    destruct (part_cases c v' (Builder.order_push (rank c) (mark c b)))
      as [(_ & ->) | [(? & _) | (? & _)]]; [|congruence..].
    split; [done|]. by destruct c.
Qed.

Lemma order_failure_closes_builder_witness :
  let b := (Builder.id "main" fresh).1 in
  let b' := (Builder.element "div" b).1 in
  Builder.order b' = Builder.order b ++ [rank Element] ∧
  (∀ ps, ¬ nondecreasing (Builder.order (calls ps b').1) ∧
         Forall (λ r, is_throw r = true) (calls ps b').2) ∧
  (∀ c' v', is_throw (part c' v' b').2 = true) ∧
  (singleton_category Element = true →
   ∀ v', part Element v' b' = (b', Throw (Builder.duplicationError b')) ∧
         DuplicateSelectorPartError (Builder.duplicationError b')).
Proof.
  apply (order_failure_closes_builder Element "div" (Builder.id "main" fresh).1
           _ (Builder.orderError fresh)).
  - split; reflexivity.
  - vm_compute. reflexivity.
  - reflexivity.
Defined.

(** ** Separate facade calls *)



(** ** Rendering *)

(** C5.  On a heap where [A] and [B] are builders, [combine(A, k, B)] returns
    a new builder whose [stringify()] is [A]'s text, a space, [k] as given,
    a space, and [B]'s text, for any [k].  With [A] built by
    [element('div').id('main')] and [B] by [element('table').id('data')],
    [combine(A, '+', B).stringify()] is ["div#main + table#data"]. *)
Theorem combine_renders :
  (∀ (h : Heap.t) (A B : nat) (k : string) (a b : Builder.t),
     Heap.wf h →
     Heap.objects h !! A = Some a →
     Heap.objects h !! B = Some b →
     Heap.call Builder.stringify A h = Some (h, Normal (Builder.result a)) ∧
     Heap.call Builder.stringify B h = Some (h, Normal (Builder.result b)) ∧
     ∃ h' ref,
       cssSelectorBuilder.combine A k B h = Some (h', Normal ref) ∧
       and_stringify (cssSelectorBuilder.combine A k B h)
       = Some (h', Normal (Builder.result a +:+ " " +:+ k +:+ " " +:+ Builder.result b))) ∧
  snd <$> and_stringify (cssSelectorBuilder.combine 0 "+" 3 two_selectors)
  = Some (Normal "div#main + table#data").
Proof.
  split; [|by vm_compute].
  intros h A B k a b Hwf Ha Hb.
  split_and!; [by apply call_stringify..|].
  pose proof (enter_spec (ViaCombine A k B) h) as Hc.
  cbn [enter entry_builder] in Hc.
  rewrite (operand_lookup h A a), (operand_lookup h B b) in Hc by done.
  rewrite Hc. eexists _, _. split; [done|].
  unfold and_stringify. cbn [handed snd fst Builder.combine Builder.modify].
  erewrite call_stringify by apply lookup_insert_eq. reflexivity.
Qed.

Lemma combine_renders_witness :
  ∃ h' ref,
    cssSelectorBuilder.combine 0 ">" 3 two_selectors = Some (h', Normal ref) ∧
    and_stringify (cssSelectorBuilder.combine 0 ">" 3 two_selectors)
    = Some (h', Normal ("div#main" +:+ " " +:+ ">" +:+ " " +:+ "table#data")).
Proof.
  refine (proj2 (proj2 (proj1 combine_renders two_selectors 0 3 ">"
    div_main table_data two_selectors_wf _ _)));
    by vm_compute.
Defined.

(** C6.  The text of a selector all of whose appends returned is the
    concatenation of their fragments in the order of the calls: the value
    itself for [element], ["#"], ["."], [":"] or ["::"] before it for [id],
    [class], [pseudoClass], [pseudoElement], and ["["] ... ["]"] around it for
    [attr].  This holds of a run of calls on a new builder and of a chain
    through the facade.  [id('main').class('container').class('editable')]
    renders as ["#main.container.editable"], and
    [element('a').attr('href$=".png"').pseudoClass('focus')] as
    [a[href$=".png"]:focus]. *)
Theorem stringify_concatenates :
  (∀ (d o : Error) (ps : list (category * string)),
     let run := calls ps (Builder.constructor d o) in
     Forall (λ r, r = Normal tt) run.2 →
     Builder.stringify run.1 = (run.1, Normal (fragments ps))) ∧
  (∀ (h h' : Heap.t) (c : category) (v : string) ps (ref : nat),
     run_chain (mkChain (ViaPart c v) ps) h = Some (h', Normal ref) →
     and_stringify (run_chain (mkChain (ViaPart c v) ps) h)
     = Some (h', Normal (fragments ((c, v) :: ps)))) ∧
  (∀ v, fragment Element v = v ∧ fragment Id v = "#" +:+ v ∧
        fragment Class v = "." +:+ v ∧ fragment Attribute v = "[" +:+ v +:+ "]" ∧
        fragment PseudoClass v = ":" +:+ v ∧ fragment PseudoElement v = "::" +:+ v) ∧
  snd <$> and_stringify
            (and_then (and_then (cssSelectorBuilder.id "main" Heap.empty)
                         Class "container") Class "editable")
  = Some (Normal "#main.container.editable") ∧
  snd <$> and_stringify
            (and_then (and_then (cssSelectorBuilder.element "a" Heap.empty)
                         Attribute ("href$=" +:+ dquote +:+ ".png" +:+ dquote))
               PseudoClass "focus")
  = Some (Normal ("a[href$=" +:+ dquote +:+ ".png" +:+ dquote +:+ "]:focus")).
Proof.
  split_and!; [| |done|by vm_compute..].
  - intros d o ps run Hall. unfold Builder.stringify, Builder.bind, Builder.get, Builder.ret.
    do 2 f_equal. unfold run. by rewrite calls_result.
  - intros h h' c v ps ref. rewrite run_chain_spec.
    unfold chain_builder. cbn [chain_entry chain_rest entry_builder].
    pose proof (chained_cons c v ps (made h)) as Hcons.
    destruct (part c v (made h)) as [b1 [[]|e]] eqn:Hp; cbn [fst snd] in *;
      [|done].
    rewrite <-Hcons.
    destruct (chained ((c, v) :: ps) (made h)) as [b' [[]|e]] eqn:Hch; [|done].
    cbn [fst snd handed]. intros [= <- <-].
    unfold and_stringify. erewrite call_stringify by apply lookup_insert_eq.
    cbn [Heap.objects Heap.next].
    by rewrite (chained_result _ _ _ Hch).
Qed.

Lemma stringify_concatenates_witness :
  Builder.stringify (calls [(Id, "main"); (Class, "container"); (Class, "editable")] fresh).1
  = ((calls [(Id, "main"); (Class, "container"); (Class, "editable")] fresh).1,
     Normal (fragments [(Id, "main"); (Class, "container"); (Class, "editable")])).
Proof.
  apply (proj1 stringify_concatenates (mkError 1 duplication_message)
           (mkError 2 order_message)
           [(Id, "main"); (Class, "container"); (Class, "editable")]).
  vm_compute. repeat constructor.
Defined.

(** C7.  [ref.stringify()] returns the builder's [result] and leaves the
    whole heap as it was; so any number of calls in a row return that same
    text, and the builder (like every other object) is unchanged after
    them. *)
Theorem stringify_idempotent (h : Heap.t) (ref : nat) (b : Builder.t) (n : nat) :
  Heap.objects h !! ref = Some b →
  Builder.stringify b = (b, Normal (Builder.result b)) ∧
  Heap.call Builder.stringify ref h = Some (h, Normal (Builder.result b)) ∧
  stringify_times n ref h = Some (h, replicate n (Normal (Builder.result b))).
Proof.
  intros Hb. split_and!; [done|by apply call_stringify|by apply stringify_times_spec].
Qed.

Lemma stringify_idempotent_witness :
  Heap.call Builder.stringify 3 two_selectors
  = Some (two_selectors, Normal "table#data") ∧
  stringify_times 4 3 two_selectors
  = Some (two_selectors, replicate 4 (Normal "table#data")).
Proof.
  refine (proj2 (stringify_idempotent two_selectors 3 table_data 4 _)).
  by vm_compute.
Defined.

(** ** Error objects *)

(** C8, as the spec words it, does not hold.  On the builder made by
    [element('div').id('main')], a second [element] and then a second [id]
    both fail, for two different categories; both throw one and the same
    object, the [Error] at address 1 that the constructor stored in
    [duplicationError] before either call, and its message names neither
    category. *)
Lemma failures_share_one_error :
  Heap.objects two_selectors !! 0 = Some div_main ∧
  Builder.duplicationError div_main = mkError 1 duplication_message ∧
  ∃ h1 h2 e1 e2,
    Heap.call_this (Builder.element "x") 0 two_selectors = Some (h1, Throw e1) ∧
    Heap.call_this (Builder.id "y") 0 h1 = Some (h2, Throw e2) ∧
    e1 = e2 ∧ e1 = Builder.duplicationError div_main.
Proof.
  split; [by vm_compute|]. split; [done|].
  eexists _, _, _, _. split_and!; by vm_compute.
Qed.

(** C8, amended.  A failed append throws one of the two [Error] objects its
    builder holds, [duplicationError] or [orderError], and no call replaces
    them: every failure in any run of appends on a builder throws one of
    these same two objects.  [new Builder()] creates the two with the fixed
    messages, at addresses of their own, so they differ from each other and
    from the errors of every builder that already exists. *)
Theorem errors_are_per_builder :
  (∀ (c : category) (v : string) (b b' : Builder.t) (e : Error),
     part c v b = (b', Throw e) →
     (e = Builder.duplicationError b ∨ e = Builder.orderError b) ∧
     Builder.duplicationError b' = Builder.duplicationError b ∧
     Builder.orderError b' = Builder.orderError b) ∧
  (∀ (ps : list (category * string)) (b : Builder.t) (e : Error),
     Throw e ∈ (calls ps b).2 →
     e = Builder.duplicationError b ∨ e = Builder.orderError b) ∧
  (∀ (h : Heap.t),
     Heap.wf h →
     ∃ b, Heap.objects (Heap.new_Builder h).2 !! (Heap.new_Builder h).1 = Some b ∧
          errors_ok b ∧
          Builder.duplicationError b ≠ Builder.orderError b ∧
          ∀ r0 b0, Heap.objects h !! r0 = Some b0 →
            Builder.duplicationError b ≠ Builder.duplicationError b0 ∧
            Builder.duplicationError b ≠ Builder.orderError b0 ∧
            Builder.orderError b ≠ Builder.duplicationError b0 ∧
            Builder.orderError b ≠ Builder.orderError b0).
Proof.
  split_and!.
  - intros c v b b' e Hp.
    pose proof (part_thrown c v b e) as Hthrown.
    pose proof (part_errors c v b) as Herr.
    rewrite Hp in Hthrown, Herr. simpl in *. by split; [apply Hthrown|].
  - apply calls_thrown.
  - intros h Hwf. rewrite new_Builder_spec. cbn [fst snd Heap.objects].
    exists (made h). rewrite lookup_insert_eq. split_and!; [done|by split|done|].
    intros r0 b0 (_ & Hd & Ho)%Hwf.
    split_and!; intros Heq; simpl in Heq; rewrite <-Heq in *; simpl in *; lia.
Qed.

Lemma errors_are_per_builder_witness :
  ∃ b, Heap.objects (Heap.new_Builder two_selectors).2
         !! (Heap.new_Builder two_selectors).1 = Some b ∧
       errors_ok b ∧
       Builder.duplicationError b ≠ Builder.orderError b ∧
       ∀ r0 b0, Heap.objects two_selectors !! r0 = Some b0 →
         Builder.duplicationError b ≠ Builder.duplicationError b0 ∧
         Builder.duplicationError b ≠ Builder.orderError b0 ∧
         Builder.orderError b ≠ Builder.duplicationError b0 ∧
         Builder.orderError b ≠ Builder.orderError b0.
Proof.
  exact (proj2 (proj2 errors_are_per_builder) two_selectors two_selectors_wf).
Defined.

(** * Further properties of the builder *)

(** ** Validation *)

(** X1.  [validateOrder] assigns nothing.  It returns when [order] is in
    order and throws [orderError] otherwise, that is, exactly when some
    entry of [order] is followed by a smaller one. *)
Theorem validateOrder_throws_iff (b : Builder.t) :
  (Builder.validateOrder b).1 = b ∧
  ((Builder.validateOrder b).2 = Normal tt ∨
   (Builder.validateOrder b).2 = Throw (Builder.orderError b)) ∧
  ((Builder.validateOrder b).2 = Throw (Builder.orderError b) ↔
   ∃ i x y, Builder.order b !! i = Some x ∧ Builder.order b !! S i = Some y ∧
            (y < x)%Z).
Proof.
  rewrite validateOrder_spec, <-unsorted_descent. simpl.
  destruct (decide (nondecreasing (Builder.order b))) as [Hs|Hs].
  - split_and!; [done|by left|]. split; [done|]. by intros [].
  - split_and!; [done|by right|]. done.
Qed.

(** X2.  On a builder whose [order] is in order, an append whose flag is not
    set returns exactly when [order] is empty or its last entry is at most
    the rank of the append: sorting and comparing the whole of [order]
    decides the same as a comparison with the last rank. *)
Theorem append_checks_last_rank (c : category) (v : string) (b : Builder.t) :
  nondecreasing (Builder.order b) →
  seen c b = false →
  (part c v b).2 = Normal tt ↔
  ∀ x, last (Builder.order b) = Some x → (x <= rank c)%Z.
Proof.
  intros Hs Hseen. rewrite <-(snoc_in_order _ _ Hs).
  destruct (part_cases c v b)
    as [(? & _) | [(_ & Hn & ->) | (_ & Hn & ->)]]; [congruence|done..].
Qed.

Lemma append_checks_last_rank_witness :
  (part Attribute "href" (calls [(Element, "a"); (Class, "c")] fresh).1).2 = Normal tt ↔
  ∀ x, last (Builder.order (calls [(Element, "a"); (Class, "c")] fresh).1) = Some x →
       (x <= rank Attribute)%Z.
Proof.
  apply (append_checks_last_rank Attribute "href"
           (calls [(Element, "a"); (Class, "c")] fresh).1).
  - change (nondecreasing [0; 2]%Z). repeat constructor. lia.
  - reflexivity.
Defined.

(** ** Valid selectors *)

(** X3.  A run of appends on a new builder returns throughout exactly when
    the ranks of the calls never decrease and [element], [id] and
    [pseudoElement] are each called at most once.  The same decides whether
    a chain through the facade hands back a builder. *)
Theorem selector_valid_iff (ps : list (category * string)) :
  let valid := nondecreasing (ranks ps) ∧ times Element ps ≤ 1 ∧
               times Id ps ≤ 1 ∧ times PseudoElement ps ≤ 1 in
  (∀ d o, Forall (λ r, r = Normal tt) (calls ps (Builder.constructor d o)).2 ↔ valid) ∧
  (∀ c v ps' h, ps = (c, v) :: ps' →
     (∃ h' ref, run_chain (mkChain (ViaPart c v) ps') h = Some (h', Normal ref)) ↔ valid).
Proof.
  intros valid.
  assert (∀ d o, Forall (λ r, r = Normal tt) (calls ps (Builder.constructor d o)).2 ↔ valid)
    as Hcalls.
  { intros d o. rewrite calls_all_return_iff by constructor. unfold valid.
    simpl. split.
    - intros [Hs Hc]. pose proof (Hc Element eq_refl).
      pose proof (Hc Id eq_refl). pose proof (Hc PseudoElement eq_refl).
      simpl in *. split_and!; [done|lia..].
    - intros (Hs & He & Hi & Hp). split; [done|].
      intros c Hc. destruct c; simpl in *; try done; lia. }
  split; [done|].
  intros c v ps' h ->. rewrite run_chain_spec. unfold chain_builder.
  cbn [chain_entry chain_rest entry_builder].
  rewrite <-(Hcalls (Builder.duplicationError (made h)) (Builder.orderError (made h))).
  change (Builder.constructor _ _) with (made h).
  rewrite <-chained_normal_iff, chained_cons.
  destruct (part c v (made h)) as [b1 [[]|e]]; cbn [fst snd].
  - destruct (chained ps' b1) as [b2 [[]|e]]; cbn [fst snd handed].
    + split; [done|]. by eexists _, _.
    + split; [by intros (? & ? & ?)|done].
  - cbn [handed]. split; [by intros (? & ? & ?)|done].
Qed.

(** X4.  After any run of appends, returned or thrown, the text of the
    builder is its text before followed by the fragments of exactly the
    calls that returned, in the order they were made; a call that threw has
    left no trace in it. *)
Theorem text_of_any_run (ps : list (category * string)) (b : Builder.t) :
  Builder.result (calls ps b).1
  = Builder.result b +:+ fragments (returned ps (calls ps b).2) ∧
  returned ps (calls ps b).2 `sublist_of` ps.
Proof. split; [apply calls_result_returned|apply returned_sublist]. Qed.

(** X5.  In every builder a program can hold (made by the constructor, then
    put through any appends and [combine]s, failed ones included) [order]
    holds only ranks 0 to 5, and the rank of [element] is in it once if
    [elementUsed] is set and not at all otherwise; likewise rank 1 for
    [idUsed] and rank 5 for [pseudoElementUsed]. *)
Theorem flags_agree_with_order (b : Builder.t) :
  reachable b →
  Forall (λ r, (0 <= r <= 5)%Z) (Builder.order b) ∧
  occurrences 0 (Builder.order b) = (if Builder.elementUsed b then 1 else 0) ∧
  occurrences 1 (Builder.order b) = (if Builder.idUsed b then 1 else 0) ∧
  occurrences 5 (Builder.order b) = (if Builder.pseudoElementUsed b then 1 else 0).
Proof.
  intros [Hr Hc]%reachable_consistent. split; [done|].
  pose proof (Hc Element eq_refl). pose proof (Hc Id eq_refl).
  pose proof (Hc PseudoElement eq_refl). done.
Qed.

Lemma flags_agree_with_order_witness :
  let b := (calls [(Id, "main"); (Element, "div"); (Id, "x"); (Class, "c")] fresh).1 in
  Forall (λ r, (0 <= r <= 5)%Z) (Builder.order b) ∧
  occurrences 0 (Builder.order b) = (if Builder.elementUsed b then 1 else 0) ∧
  occurrences 1 (Builder.order b) = (if Builder.idUsed b then 1 else 0) ∧
  occurrences 5 (Builder.order b) = (if Builder.pseudoElementUsed b then 1 else 0).
Proof.
  apply (flags_agree_with_order
           (calls [(Id, "main"); (Element, "div"); (Id, "x"); (Class, "c")] fresh).1).
  apply reachable_calls. exact (reach_new _ _).
Defined.

(** ** The facade and [combine] *)

(** X6.  An entry point of the facade for a part never throws: on any heap
    it returns a new builder, stored at the next free address, whose [order]
    is the one rank of the call, whose text is the one fragment, and whose
    only set flag is that of the call (none for [class], [attr],
    [pseudoClass]). *)
Theorem facade_entry_returns (c : category) (v : string) (h : Heap.t) :
  ∃ b,
    facade_part c v h
    = Some (Heap.mk (<[Heap.next h := b]> (Heap.objects h))
                    (S (S (S (Heap.next h)))),
            Normal (Heap.next h)) ∧
    Builder.order b = [rank c] ∧
    Builder.result b = fragment c v ∧
    (∀ c', seen c' b = if decide (c = c') then singleton_category c else false) ∧
    snd <$> and_stringify (facade_part c v h) = Some (Normal (fragment c v)).
Proof.
  eexists. split; [apply facade_part_spec|].
  split_and!.
  - by destruct c.
  - by destruct c.
  - intros c'. destruct c, c'; by case_decide.
  - rewrite facade_part_spec. unfold and_stringify.
    erewrite call_stringify by apply lookup_insert_eq. by destruct c.
Qed.

(** X7.  The builder [combine] returns carries nothing of the history of its
    operands: whatever [A] and [B] hold, the first append on
    [combine(A, k, B)], of any category, returns, and the text is the
    combined text followed by the fragment. *)
Theorem combined_accepts_first_append
    (h : Heap.t) (A B : nat) (k : string) (a b : Builder.t)
    (c : category) (v : string) :
  Heap.wf h →
  Heap.objects h !! A = Some a →
  Heap.objects h !! B = Some b →
  ∃ h' ref,
    and_then (cssSelectorBuilder.combine A k B h) c v = Some (h', Normal ref) ∧
    and_stringify (and_then (cssSelectorBuilder.combine A k B h) c v)
    = Some (h', Normal (combined_text (Builder.result a) k (Builder.result b)
                        +:+ fragment c v)).
Proof.
  intros Hwf Ha Hb.
  destruct (combine_step h A B k a b Hwf Ha Hb) as (h1 & -> & _ & _ & Hnew).
  cbn [and_then]. rewrite (call_this_lookup _ _ _ _ Hnew).
  rewrite first_append by (done || by destruct c).
  cbn [fst snd handed]. eexists _, _. split; [done|].
  unfold and_stringify. erewrite call_stringify by apply lookup_insert_eq.
  by destruct c.
Qed.

Lemma combined_accepts_first_append_witness :
  ∃ h' ref,
    and_then (cssSelectorBuilder.combine 0 "+" 3 two_selectors) Element "p"
    = Some (h', Normal ref) ∧
    and_stringify (and_then (cssSelectorBuilder.combine 0 "+" 3 two_selectors)
                     Element "p")
    = Some (h', Normal (combined_text "div#main" "+" "table#data"
                        +:+ fragment Element "p")).
Proof.
  refine (combined_accepts_first_append two_selectors 0 3 "+"
            div_main table_data Element "p" two_selectors_wf _ _);
    by vm_compute.
Defined.

(** X8.  [combine] called on any builder returns, appends the combined text
    to [result], and leaves the builder's flags and [order] alone: an append
    made after it completes exactly as it would have without it, with the
    same error object if it throws and the same flags and [order]
    afterwards. *)
Theorem combine_keeps_validation
    (s1 : Builder.t) (k : string) (s2 b : Builder.t) (c : category) (v : string) :
  let b' := (Builder.combine s1 k s2 b).1 in
  (Builder.combine s1 k s2 b).2 = Normal tt ∧
  Builder.result b'
  = Builder.result b +:+ combined_text (Builder.result s1) k (Builder.result s2) ∧
  (part c v b').2 = (part c v b).2 ∧
  Builder.order (part c v b').1 = Builder.order (part c v b).1 ∧
  (∀ c', seen c' (part c v b').1 = seen c' (part c v b).1).
Proof.
  intros b'.
  assert (b' = Builder.result_append
                 (combined_text (Builder.result s1) k (Builder.result s2)) b)
    as -> by done.
  split_and!; [done..| | |].
  - rewrite !part_spec.
    replace (seen c (Builder.result_append _ b)) with (seen c b) by by destruct c.
    destruct (seen c b); [done|]. simpl. by case_decide.
  - rewrite !part_spec.
    replace (seen c (Builder.result_append _ b)) with (seen c b) by by destruct c.
    destruct (seen c b); [done|]. simpl. case_decide; by destruct c.
  - intros c'. rewrite !part_spec.
    replace (seen c (Builder.result_append _ b)) with (seen c b) by by destruct c.
    destruct (seen c b); [by destruct c'|].
    simpl. case_decide; by destruct c, c'.
Qed.

(** X9.  Nesting [combine] on the left or on the right gives the same text:
    [combine(combine(A, k1, B), k2, C)] and [combine(A, k1, combine(B, k2, C))]
    both render as the three texts in order, each combinator between single
    spaces. *)
Theorem nested_combine_text
    (h : Heap.t) (A B C : nat) (k1 k2 : string) (a b c : Builder.t) :
  Heap.wf h →
  Heap.objects h !! A = Some a →
  Heap.objects h !! B = Some b →
  Heap.objects h !! C = Some c →
  let flat := Builder.result a +:+ " " +:+ k1 +:+ " " +:+ Builder.result b
              +:+ " " +:+ k2 +:+ " " +:+ Builder.result c in
  snd <$> with_selector (cssSelectorBuilder.combine A k1 B h)
            (λ ab h1, and_stringify (cssSelectorBuilder.combine ab k2 C h1))
  = Some (Normal flat) ∧
  snd <$> with_selector (cssSelectorBuilder.combine B k2 C h)
            (λ bc h1, and_stringify (cssSelectorBuilder.combine A k1 bc h1))
  = Some (Normal flat).
Proof.
  intros Hwf Ha Hb Hc flat. split.
  - destruct (combine_step h A B k1 a b Hwf Ha Hb) as (h1 & -> & Hwf1 & Hsub & Hnew).
    cbn [with_selector].
    destruct (combine_step h1 _ C k2 _ c Hwf1 Hnew (lookup_weaken _ _ _ _ Hc Hsub))
      as (h2 & -> & _ & _ & Hnew2).
    unfold and_stringify. rewrite (call_stringify _ _ _ Hnew2).
    cbn [fmap option_fmap option_map snd]. do 2 f_equal.
    cbn [Builder.result Builder.result_append made Builder.constructor].
    unfold flat, combined_text.
    change ("" +:+ ?s) with s. by rewrite !string_app_assoc.
  - destruct (combine_step h B C k2 b c Hwf Hb Hc) as (h1 & -> & Hwf1 & Hsub & Hnew).
    cbn [with_selector].
    destruct (combine_step h1 A _ k1 a _ Hwf1 (lookup_weaken _ _ _ _ Ha Hsub) Hnew)
      as (h2 & -> & _ & _ & Hnew2).
    unfold and_stringify. rewrite (call_stringify _ _ _ Hnew2).
    cbn [fmap option_fmap option_map snd]. do 2 f_equal.
Qed.

Lemma nested_combine_text_witness :
  let flat := "div#main.container.draggable" +:+ " " +:+ "+" +:+ " " +:+ "table#data"
              +:+ " " +:+ "~" +:+ " " +:+ "tr:nth-of-type(even)   td:nth-of-type(even)" in
  snd <$> with_selector (cssSelectorBuilder.combine 0 "+" 3 documented)
            (λ ab h1, and_stringify (cssSelectorBuilder.combine ab "~" 12 h1))
  = Some (Normal flat) ∧
  snd <$> with_selector (cssSelectorBuilder.combine 3 "~" 12 documented)
            (λ bc h1, and_stringify (cssSelectorBuilder.combine 0 "+" bc h1))
  = Some (Normal flat).
Proof.
  refine (nested_combine_text documented 0 3 12 "+" "~"
            (Builder.mk true true false [0; 1; 2; 2]%Z "div#main.container.draggable"
               (mkError 1 duplication_message) (mkError 2 order_message))
            table_data
            (Builder.mk false false false [] "tr:nth-of-type(even)   td:nth-of-type(even)"
               (mkError 13 duplication_message) (mkError 14 order_message))
            documented_wf _ _ _);
    by vm_compute.
Defined.

(** X10.  [combine] copies the text of its operands and assigns nothing to
    them: after [combine(A, k, B)] both operands are as they were, and a
    later append on [A], returning or throwing, leaves the text of the
    combined selector what it was. *)
Theorem combine_copies_text
    (h : Heap.t) (A B : nat) (k : string) (a b : Builder.t)
    (c : category) (v : string) :
  Heap.wf h →
  Heap.objects h !! A = Some a →
  Heap.objects h !! B = Some b →
  ∃ h1 ref h2 rA,
    cssSelectorBuilder.combine A k B h = Some (h1, Normal ref) ∧
    Heap.objects h1 !! A = Some a ∧
    Heap.objects h1 !! B = Some b ∧
    Heap.call_this (part c v) A h1 = Some (h2, rA) ∧
    Heap.objects h2 !! A = Some (part c v a).1 ∧
    Heap.call Builder.stringify ref h2
    = Some (h2, Normal (combined_text (Builder.result a) k (Builder.result b))).
Proof.
  intros Hwf Ha Hb.
  destruct (combine_step h A B k a b Hwf Ha Hb) as (h1 & Hc & Hwf1 & Hsub & Hnew).
  pose proof (lookup_weaken _ _ _ _ Ha Hsub) as Ha1.
  pose proof (lookup_weaken _ _ _ _ Hb Hsub) as Hb1.
  eexists h1, _, _, _. split_and!; [done..|apply (call_this_lookup _ _ _ a Ha1)| |].
  - cbn [Heap.objects]. by rewrite lookup_insert_eq.
  - rewrite (call_stringify _ _
               (Builder.result_append
                  (combined_text (Builder.result a) k (Builder.result b)) (made h)));
      [reflexivity|].
    cbn [Heap.objects].
    rewrite lookup_insert_ne by (by eapply wf_lookup_ne).
    exact Hnew.
Qed.

Lemma combine_copies_text_witness :
  ∃ h1 ref h2 rA,
    cssSelectorBuilder.combine 0 "+" 3 two_selectors = Some (h1, Normal ref) ∧
    Heap.objects h1 !! 0 = Some div_main ∧
    Heap.objects h1 !! 3 = Some table_data ∧
    Heap.call_this (part Class "wide") 0 h1 = Some (h2, rA) ∧
    Heap.objects h2 !! 0 = Some (part Class "wide" div_main).1 ∧
    Heap.call Builder.stringify ref h2
    = Some (h2, Normal (combined_text (Builder.result div_main) "+"
                          (Builder.result table_data))).
Proof.
  refine (combine_copies_text two_selectors 0 3 "+" div_main table_data
            Class "wide" two_selectors_wf _ _);
    by vm_compute.
Defined.

(** X11.  When every call of a run on a new builder has returned, [order] is
    the ranks of the calls, one per call, in the order they were made, and
    each of the three flags is set exactly when its method is among the
    calls. *)
Theorem valid_run_is_recorded (d o : Error) (ps : list (category * string)) :
  let run := calls ps (Builder.constructor d o) in
  Forall (λ r, r = Normal tt) run.2 →
  Builder.order run.1 = ranks ps ∧
  (Builder.elementUsed run.1 = true ↔ 0 < times Element ps) ∧
  (Builder.idUsed run.1 = true ↔ 0 < times Id ps) ∧
  (Builder.pseudoElementUsed run.1 = true ↔ 0 < times PseudoElement ps).
Proof.
  intros run Hall.
  destruct (calls_all_returned_state ps _ Hall) as [Ho Hf].
  split; [done|].
  pose proof (Hf Element) as He. pose proof (Hf Id) as Hi.
  pose proof (Hf PseudoElement) as Hp. cbn [seen] in He, Hi, Hp.
  fold run in He, Hi, Hp. rewrite He, Hi, Hp. simpl.
  split_and!; (split; [intros [?|[_ ?]]; [done|done]|intros ?; by right]).
Qed.

Lemma valid_run_is_recorded_witness :
  let run := calls [(Element, "a"); (Attribute, "href"); (PseudoClass, "focus")] fresh in
  Builder.order run.1 = ranks [(Element, "a"); (Attribute, "href"); (PseudoClass, "focus")] ∧
  (Builder.elementUsed run.1 = true ↔
   0 < times Element [(Element, "a"); (Attribute, "href"); (PseudoClass, "focus")]) ∧
  (Builder.idUsed run.1 = true ↔
   0 < times Id [(Element, "a"); (Attribute, "href"); (PseudoClass, "focus")]) ∧
  (Builder.pseudoElementUsed run.1 = true ↔
   0 < times PseudoElement [(Element, "a"); (Attribute, "href"); (PseudoClass, "focus")]).
Proof.
  apply (valid_run_is_recorded (mkError 1 duplication_message)
           (mkError 2 order_message)
           [(Element, "a"); (Attribute, "href"); (PseudoClass, "focus")]).
  vm_compute. repeat constructor.
Defined.
